(** * bn256: base field, quadratic extension and G1 point serialization

    A shallow embedding of the Go package [bn256] (clearmatics/bn256):
    the base-field element [gfP] (gfp.go), the quadratic extension
    [gfP2] (gfp2.go) and the compressed / uncompressed codec of G1
    points (mpc_serialization.go), followed by the properties of the
    package's specification that were checked against that code.

    Conventions.
    - A [uint64] is a [Z] in [0, 2^64); every wrap-around of the Go code
      is written out with [wrap64].  A [byte] is a [Z] in [0, 256).
    - A Go slice is a [list]; an index or a slice bound out of range is
      the run-time panic of Go and is modelled by [Panic].
    - A [*big.Int] is a [Z].
    - Methods that mutate their receiver return the new receiver. *)

From Stdlib Require Import ZArith Znumtheory Zpow_facts Lia List Bool.
From Stdlib Require Import Morphisms Setoid.
From Stdlib Require Zmod.
Import ListNotations.
Local Open Scope Z_scope.

(* ================================================================= *)
(** * Part I: definitions *)
(* ================================================================= *)

(** ** The Go run time: panics, loops, slices *)

(** The result of running a Go function: it returns, or it panics. *)
Inductive outcome (A : Type) : Type :=
| Done (a : A)
| Panic.

Arguments Done {A} a.
Arguments Panic {A}.

Definition bind {A B : Type} (m : outcome A) (k : A -> outcome B) : outcome B :=
  match m with
  | Done a => k a
  | Panic => Panic
  end.

Notation "x <- m ;; k" := (bind m (fun x => k))
  (at level 61, m at next level, right associativity).

(** The error values the package creates with [errors.New]. *)
Inductive error : Type :=
| ErrWrongSize         (* "wrong encoded point size" *)
| ErrNotCompressed     (* "point isn't compressed" *)
| ErrHighYBit          (* "high Y bit improperly set" *)
| ErrInvalidInfinity   (* "invalid infinity encoding" *)
| ErrExceedsModulus    (* "bn256: coordinate exceeds modulus" *)
| ErrEqualsModulus     (* "bn256: coordinate equals modulus" *)
| ErrNotASquare.       (* "not a square mod P" *)

(** [for i := 0; i < n; i++]: the indices the loop visits, in order. *)
Definition range (n : nat) : list Z := map Z.of_nat (seq 0 n).

(** [uint64] and [byte] truncation. *)
Definition wrap64 (z : Z) : Z := z mod 2 ^ 64.
Definition byte (z : Z) : Z := z mod 2 ^ 8.

Definition bytes_ok (l : list Z) : Prop := Forall (fun b => 0 <= b < 256) l.

(** [out[i] = v] on a slice: a panic when [i] is not an index of [out]. *)
Definition store (out : list Z) (i : Z) (v : Z) : outcome (list Z) :=
  if (Z.to_nat i <? length out)%nat
  then Done (firstn (Z.to_nat i) out ++ v :: skipn (S (Z.to_nat i)) out)
  else Panic.

(** [s[lo:hi]] on a slice whose capacity is its length. *)
Definition slice (s : list Z) (lo hi : Z) : outcome (list Z) :=
  if (Z.to_nat hi <=? length s)%nat
  then Done (firstn (Z.to_nat (hi - lo)) (skipn (Z.to_nat lo) s))
  else Panic.

(** [ret[0] |= m] on a slice that is not empty. *)
Definition or_first (ret : list Z) (m : Z) : list Z :=
  match ret with
  | b :: rest => Z.lor b m :: rest
  | [] => []
  end.

(** ** math/big *)

Fixpoint bytes_le (fuel : nat) (z : Z) : list Z :=
  match fuel with
  | O => []
  | S fuel' => if z =? 0 then [] else z mod 256 :: bytes_le fuel' (z / 256)
  end.

(** [big.Int.Bytes]: the absolute value as a big-endian byte slice,
    with no leading zero byte (the slice of zero is empty).  Its
    capacity is its length. *)
Definition big_Bytes (z : Z) : list Z :=
  rev (bytes_le (S (Z.to_nat (Z.log2 (Z.abs z)))) (Z.abs z)).

(** [big.Int.ModSqrt(x, m)] for a prime [m = 3 (mod 4)]: math/big
    returns [x^((m+1)/4) mod m] when [x] is a square modulo [m], and nil
    when it is not.  For such a modulus [x] is a square exactly when
    that power squares back to [x] (lemma [big_ModSqrt_complete]
    below), which is how the model decides between the two. *)
Definition big_ModSqrt (x m : Z) : option Z :=
  let c := Zpow_mod (x mod m) ((m + 1) / 4) m in
  if (c * c) mod m =? x mod m then Some c else None.

(** [binary.Read(buf, binary.BigEndian, &n)] on eight bytes. *)
Definition be_uint64 (buf : list Z) : Z :=
  fold_left (fun acc b => acc * 256 + b) buf 0.

(** ** Checkers for primality certificates

    Used only to establish that the modulus [p] below is prime. *)

Fixpoint trial_division (fuel : nat) (d n : Z) : bool :=
  match fuel with
  | O => false
  | S fuel' =>
      if n <? d * d then true
      else if n mod d =? 0 then false
      else trial_division fuel' (d + 1) n
  end.

Definition small_prime (n : Z) : bool :=
  (1 <? n) && trial_division (Z.to_nat n) 2 n.

Definition list_prod (l : list Z) : Z := fold_right Z.mul 1 l.

Fixpoint strictly_decreasing (l : list Z) : bool :=
  match l with
  | a :: (b :: _) as t => (b <? a) && strictly_decreasing t
  | _ => true
  end.

(** Pocklington's criterion for [N] with base [a] and the prime
    divisors [qs] of [N - 1]. *)
Definition pock_check (N a : Z) (qs : list Z) : bool :=
  (1 <? N) && strictly_decreasing qs
  && (N <? list_prod qs * list_prod qs)
  && (Zpow_mod a (N - 1) N =? 1)
  && forallb (fun q => (0 <? q) && ((N - 1) mod q =? 0)
                       && (Z.gcd (Zpow_mod a ((N - 1) / q) N - 1) N =? 1)) qs.

(** ** constants.go

    The file is not among the sources; its values are fixed by the
    sources that use them. *)

(** The field prime [P]; mpc_serialization.go quotes it in decimal. *)
Definition p : Z :=
  21888242871839275222246405745257275088696311157297823662689037894645226208583.

(** Montgomery radix: "R is a power of 2 corresponding to the number of
    machine-words that can contain p" (gfp.go). *)
Definition R : Z := 2 ^ 256.

(** The inverse of [R] modulo [p]. *)
Definition Rinv : Z :=
  20988524275117001072002809824448087578619730785600314334253784976379291040311.

(** ** gfp.go: the base field *)

Definition FpUint64Size : Z := 4.

(** [type gfP [FpUint64Size]uint64]: four limbs, least significant first. *)
Record gfP : Type := mkGfP { l0 : Z; l1 : Z; l2 : Z; l3 : Z }.

(** [e[i]] *)
Definition limb (e : gfP) (i : Z) : Z :=
  match i with
  | 0 => l0 e
  | 1 => l1 e
  | 2 => l2 e
  | 3 => l3 e
  | _ => 0
  end.

(** [e[i] = v] *)
Definition set_limb (e : gfP) (i : Z) (v : Z) : gfP :=
  match i with
  | 0 => mkGfP v (l1 e) (l2 e) (l3 e)
  | 1 => mkGfP (l0 e) v (l2 e) (l3 e)
  | 2 => mkGfP (l0 e) (l1 e) v (l3 e)
  | 3 => mkGfP (l0 e) (l1 e) (l2 e) v
  | _ => e
  end.

(** [a == b] on arrays. *)
Definition gfP_eqb (a b : gfP) : bool :=
  (l0 a =? l0 b) && (l1 a =? l1 b) && (l2 a =? l2 b) && (l3 a =? l3 b).

(** [gfP{0}] and [gfP{1}] *)
Definition gfP_zero : gfP := mkGfP 0 0 0 0.
Definition gfP_lit1 : gfP := mkGfP 1 0 0 0.

(** Every limb is a [uint64]. *)
Definition limbs_ok (e : gfP) : Prop :=
  0 <= l0 e < 2 ^ 64 /\ 0 <= l1 e < 2 ^ 64 /\
  0 <= l2 e < 2 ^ 64 /\ 0 <= l3 e < 2 ^ 64.

(** The integer a limb array stands for. *)
Definition to_Z (e : gfP) : Z :=
  l0 e + l1 e * 2 ^ 64 + l2 e * 2 ^ 128 + l3 e * 2 ^ 192.

Definition of_Z (v : Z) : gfP :=
  mkGfP (v mod 2 ^ 64) ((v / 2 ^ 64) mod 2 ^ 64)
        ((v / 2 ^ 128) mod 2 ^ 64) ((v / 2 ^ 192) mod 2 ^ 64).

(** A field element: limbs in range and value below the modulus. *)
Definition gfP_valid (e : gfP) : Prop := limbs_ok e /\ to_Z e < p.

(** [p2]: "p, represented as little-endian 64-bit words"; gfp.go quotes
    the limbs in [Invert]. *)
Definition p2 : gfP :=
  mkGfP 0x3c208c16d87cfd47 0x97816a916871ca8d 0xb85045b68181585d 0x30644e72e131a029.

(** Modelled from the spec: [rN1], [r2] and [r3] of constants.go are not
    among the sources.  They are the Montgomery constants [R^-1], [R^2]
    and [R^3] modulo [p] (spec 3: Montgomery form is [value * R mod p];
    4.1: "one Montgomery-domain correction multiply"). *)
Definition rN1 : gfP :=
  mkGfP 0xed84884a014afa37 0xeb2022850278edf8 0xcf63e9cfb74492d9 0x2e67157159e5c639.
Definition r2 : gfP :=
  mkGfP 0xf32cfc5b538afa89 0xb5e71911d44501fb 0x47ab1eff0a417ff6 0x06d89f71cab8351f.
Definition r3 : gfP :=
  mkGfP 0xb1cd6dafda1530df 0x62f210e6a7283db6 0xef7f0b0c0ada0afb 0x20fd6e902d592544.

(** Modelled from the spec: the primitive arithmetic unit (gfp_decl.go /
    gfp_generic.go) is not among the sources.  Spec 6.1: [add(a,b)],
    [sub(a,b)], [neg(a)] and [mul(a,b) = a*b*R^-1 mod p] on field
    elements, each result a reduced residue modulo [p]. *)
Definition gfpAdd (a b : gfP) : gfP := of_Z ((to_Z a + to_Z b) mod p).
Definition gfpSub (a b : gfP) : gfP := of_Z ((to_Z a - to_Z b) mod p).
Definition gfpNeg (a : gfP) : gfP := of_Z ((- to_Z a) mod p).
Definition gfpMul (a b : gfP) : gfP := of_Z ((to_Z a * to_Z b * Rinv) mod p).

(** [func montEncode(c, a *gfP) { gfpMul(c, a, r2) }] *)
Definition montEncode (a : gfP) : gfP := gfpMul a r2.

(** [func montDecode(c, a *gfP) { gfpMul(c, a, &gfP{1}) }] *)
Definition montDecode (a : gfP) : gfP := gfpMul a gfP_lit1.

(** [func newGFp(x int64) (out *gfP)] *)
Definition newGFp (x : Z) : gfP :=
  let out :=
    if 0 <=? x then mkGfP (wrap64 x) 0 0 0
    else gfpNeg (mkGfP (wrap64 (- x)) 0 0 0) in
  montEncode out.

(** [func (e *gfP) gFpToBigInt() *big.Int]: the limbs are printed most
    significant first, sixteen hexadecimal digits each, and the string
    is read back in base 16. *)
Definition gFpToBigInt (e : gfP) : Z := to_Z e.

(** [func newGFpFromBigInt(in *big.Int) (out *gfP)]: the slice
    expression [inBytes[i*8 : (i+1)*8]] panics when [in.Bytes()] is
    shorter than [(i+1)*8] bytes. *)
Definition newGFpFromBigInt (v : Z) : outcome gfP :=
  let inBytes := big_Bytes v in
  fold_left
    (fun st i =>
       out <- st ;;
       buf <- slice inBytes (i * 8) ((i + 1) * 8) ;;
       Done (set_limb out ((FpUint64Size - 1) - i) (be_uint64 buf)))
    (range 4) (Done gfP_zero).

(** [func (e *gfP) Set(f *gfP)] *)
Definition gfP_Set (f : gfP) : gfP :=
  mkGfP (limb f 0) (limb f 1) (limb f 2) (limb f 3).

(** The local [bits] of [Invert]: the limbs of [p - 2]. *)
Definition invert_bits : gfP :=
  mkGfP 0x3c208c16d87cfd45 0x97816a916871ca8d 0xb85045b68181585d 0x30644e72e131a029.

(** The body of the inner loop of [Invert] on [(sum, power)]. *)
Definition invert_step (word : Z) (st : gfP * gfP) (bit : Z) : gfP * gfP :=
  let '(sum, power) := st in
  let sum :=
    if Z.land (Z.shiftr (limb invert_bits word) bit) 1 =? 1
    then gfpMul sum power else sum in
  (sum, gfpMul power power).

(** [func (e *gfP) Invert(f *gfP)] *)
Definition gfP_Invert (f : gfP) : gfP :=
  let '(sum, _) :=
    fold_left (fun st word => fold_left (invert_step word) (range 64) st)
              (range 4) (gfP_Set rN1, gfP_Set f) in
  gfP_Set (gfpMul sum r3).

(** [func (e *gfP) Marshal(out []byte)] *)
Definition gfP_Marshal (e : gfP) (out : list Z) : outcome (list Z) :=
  fold_left
    (fun st w =>
       fold_left
         (fun st b =>
            o <- st ;;
            store o (8 * w + b) (byte (Z.shiftr (limb e (3 - w)) (56 - 8 * b))))
         (range 8) st)
    (range 4) (Done out).

(** One [e[3-w] += uint64(in[8*w+b]) << (56 - 8*b)]. *)
Definition unmarshal_step (inp : list Z) (w : Z) (st : outcome gfP) (b : Z)
  : outcome gfP :=
  e <- st ;;
  match nth_error inp (Z.to_nat (8 * w + b)) with
  | None => Panic
  | Some v =>
      Done (set_limb e (3 - w)
              (wrap64 (limb e (3 - w) + wrap64 (Z.shiftl v (56 - 8 * b)))))
  end.

(** The second loop of [Unmarshal]: [e] against [p2], most significant
    limb first. *)
Fixpoint modulus_check (idx : list Z) (e : gfP) : option error :=
  match idx with
  | [] => Some ErrEqualsModulus
  | i :: rest =>
      if limb e i <? limb p2 i then None
      else if limb e i >? limb p2 i then Some ErrExceedsModulus
      else modulus_check rest e
  end.

(** [func (e *gfP) Unmarshal(in []byte) error]: the receiver after the
    call and the error returned. *)
Definition gfP_Unmarshal (e : gfP) (inp : list Z) : outcome (gfP * option error) :=
  e' <- fold_left (fun st w => fold_left (unmarshal_step inp w) (range 8) st)
                  (range 4) (Done e) ;;
  Done (e', modulus_check [3; 2; 1; 0] e').

(** ** gfp2.go: the quadratic extension *)

(** [type gfP2 struct { x, y gfP }]: the value is [x*i + y]. *)
Record gfP2 : Type := mkGfP2 { gfP2_x : gfP; gfP2_y : gfP }.

(** [func (e *gfP2) Set(a *gfP2) *gfP2] *)
Definition gfP2_Set (a : gfP2) : gfP2 :=
  mkGfP2 (gfP_Set (gfP2_x a)) (gfP_Set (gfP2_y a)).

(** [func (e *gfP2) SetOne() *gfP2] *)
Definition gfP2_SetOne : gfP2 := mkGfP2 gfP_zero (newGFp 1).

(** [func (e *gfP2) Mul(a, b *gfP2) *gfP2] *)
Definition gfP2_Mul (a b : gfP2) : gfP2 :=
  let tx := gfpMul (gfP2_x a) (gfP2_y b) in
  let t := gfpMul (gfP2_x b) (gfP2_y a) in
  let tx := gfpAdd tx t in
  let ty := gfpMul (gfP2_y a) (gfP2_y b) in
  let t := gfpMul (gfP2_x a) (gfP2_x b) in
  let ty := gfpSub ty t in
  mkGfP2 (gfP_Set tx) (gfP_Set ty).

(** [func (e *gfP2) Square(a *gfP2) *gfP2] *)
Definition gfP2_Square (a : gfP2) : gfP2 :=
  let tx := gfpSub (gfP2_y a) (gfP2_x a) in
  let ty := gfpAdd (gfP2_x a) (gfP2_y a) in
  let ty := gfpMul tx ty in
  let tx := gfpMul (gfP2_x a) (gfP2_y a) in
  let tx := gfpAdd tx tx in
  mkGfP2 (gfP_Set tx) (gfP_Set ty).

(** The body of the inner loop of [Exp] on [(res, foundOne)], with the
    number of calls of [Mul] made so far as a third component. *)
Definition exp_step (base : gfP2) (exponentByte : Z)
  (st : gfP2 * bool * nat) (j : Z) : gfP2 * bool * nat :=
  let '(res, foundOne, muls) := st in
  let '(res, muls) :=
    if foundOne then (gfP2_Mul res res, S muls) else (res, muls) in
  if negb (Z.land exponentByte (2 ^ (7 - j)) =? 0)
  then (gfP2_Mul res base, true, S muls)
  else (res, foundOne, muls).

(** [func (e *gfP2) Exp(exponent *big.Int) *gfP2], together with the
    number of calls of [Mul] it makes. *)
Definition gfP2_Exp_counting (e : gfP2) (exponent : Z) : gfP2 * nat :=
  let res := gfP2_SetOne in
  let base := gfP2_Set e in
  let exponentBytes := big_Bytes exponent in
  let '(res, _, muls) :=
    fold_left (fun st b => fold_left (exp_step base b) (range 8) st)
              exponentBytes (res, false, O) in
  (gfP2_Set res, muls).

Definition gfP2_Exp (e : gfP2) (exponent : Z) : gfP2 :=
  fst (gfP2_Exp_counting e exponent).

(** ** gfp2.go: the remaining operations *)

(** [func gfP2Decode(in *gfP2) *gfP2] *)
Definition gfP2Decode (a : gfP2) : gfP2 :=
  mkGfP2 (montDecode (gfP2_x a)) (montDecode (gfP2_y a)).

(** [func (e *gfP2) SetZero() *gfP2] *)
Definition gfP2_SetZero : gfP2 := mkGfP2 gfP_zero gfP_zero.

(** [func (e *gfP2) IsZero() bool] *)
Definition gfP2_IsZero (e : gfP2) : bool :=
  gfP_eqb (gfP2_x e) gfP_zero && gfP_eqb (gfP2_y e) gfP_zero.

(** [func (e *gfP2) IsOne() bool] *)
Definition gfP2_IsOne (e : gfP2) : bool :=
  gfP_eqb (gfP2_x e) gfP_zero && gfP_eqb (gfP2_y e) (newGFp 1).

(** [func (e *gfP2) Conjugate(a *gfP2) *gfP2] *)
Definition gfP2_Conjugate (a : gfP2) : gfP2 :=
  mkGfP2 (gfpNeg (gfP2_x a)) (gfP_Set (gfP2_y a)).

(** [func (e *gfP2) Neg(a *gfP2) *gfP2] *)
Definition gfP2_Neg (a : gfP2) : gfP2 :=
  mkGfP2 (gfpNeg (gfP2_x a)) (gfpNeg (gfP2_y a)).

(** [func (e *gfP2) Add(a, b *gfP2) *gfP2] *)
Definition gfP2_Add (a b : gfP2) : gfP2 :=
  mkGfP2 (gfpAdd (gfP2_x a) (gfP2_x b)) (gfpAdd (gfP2_y a) (gfP2_y b)).

(** [func (e *gfP2) Sub(a, b *gfP2) *gfP2] *)
Definition gfP2_Sub (a b : gfP2) : gfP2 :=
  mkGfP2 (gfpSub (gfP2_x a) (gfP2_x b)) (gfpSub (gfP2_y a) (gfP2_y b)).

(** [func (e *gfP2) MulScalar(a *gfP2, b *gfP) *gfP2], for a [b] that
    is not a field of the receiver. *)
Definition gfP2_MulScalar (a : gfP2) (b : gfP) : gfP2 :=
  mkGfP2 (gfpMul (gfP2_x a) b) (gfpMul (gfP2_y a) b).

(** [func (e *gfP2) MulXi(a *gfP2) *gfP2] *)
Definition gfP2_MulXi (a : gfP2) : gfP2 :=
  let tx := gfpAdd (gfP2_x a) (gfP2_x a) in
  let tx := gfpAdd tx tx in
  let tx := gfpAdd tx tx in
  let tx := gfpAdd tx (gfP2_x a) in
  let tx := gfpAdd tx (gfP2_y a) in
  let ty := gfpAdd (gfP2_y a) (gfP2_y a) in
  let ty := gfpAdd ty ty in
  let ty := gfpAdd ty ty in
  let ty := gfpAdd ty (gfP2_y a) in
  let ty := gfpSub ty (gfP2_x a) in
  mkGfP2 (gfP_Set tx) (gfP_Set ty).

(** [func (e *gfP2) Invert(a *gfP2) *gfP2] *)
Definition gfP2_Invert (a : gfP2) : gfP2 :=
  let t1 := gfpMul (gfP2_x a) (gfP2_x a) in
  let t2 := gfpMul (gfP2_y a) (gfP2_y a) in
  let t1 := gfpAdd t1 t2 in
  let inv := gfP_Invert t1 in
  let t1 := gfpNeg (gfP2_x a) in
  mkGfP2 (gfpMul t1 inv) (gfpMul (gfP2_y a) inv).

(** ** curve.go and bn256.go: G1 points *)

(** [type curvePoint struct { x, y, z, t gfP }] *)
Record curvePoint : Type :=
  mkCurvePoint { cp_x : gfP; cp_y : gfP; cp_z : gfP; cp_t : gfP }.

(** [type G1 struct { p *curvePoint }]: [None] is the nil pointer. *)
Record G1 : Type := mkG1 { G1_p : option curvePoint }.

(** [curveB = newGFp(3)]: "curveB is MontEncoded, since it is create
    with newGFp"; the curve is [y^2 = x^3 + 3]. *)
Definition curveB : gfP := newGFp 3.

(** Modelled from the spec: curve.go is not among the sources.  Spec 3:
    a point is Jacobian [(X, Y, Z)] for computation and affine, with
    [Z] normalized away, for serialization; the point at infinity is
    the one whose [Z] is zero. *)
Definition IsInfinity (c : curvePoint) : bool := gfP_eqb (cp_z c) gfP_zero.

(** Modelled from the spec: [SetInfinity] of curve.go is not among the
    sources; it produces the point at infinity (spec 4.3). *)
Definition SetInfinity (c : curvePoint) : curvePoint :=
  mkCurvePoint gfP_zero (newGFp 1) gfP_zero gfP_zero.

(** Modelled from the spec: [MakeAffine] of curve.go is not among the
    sources.  Spec 4.3: "normalize to affine form": an affine point is
    left as it is, infinity stays infinity, and [(X, Y, Z)] becomes
    [(X / Z^2, Y / Z^3, 1)]. *)
Definition MakeAffine (c : curvePoint) : curvePoint :=
  if gfP_eqb (cp_z c) (newGFp 1) then c
  else if gfP_eqb (cp_z c) (newGFp 0)
  then mkCurvePoint gfP_zero (newGFp 1) (cp_z c) gfP_zero
  else
    let zInv := gfP_Invert (cp_z c) in
    let t := gfpMul (cp_y c) zInv in
    let zInv2 := gfpMul zInv zInv in
    mkCurvePoint (gfpMul (cp_x c) zInv2) (gfpMul t zInv2) (newGFp 1) (newGFp 1).

(** Modelled from the spec: [curvePoint.Neg] of curve.go is not among
    the sources.  Spec 4.4: the two points with one [x] have the
    coordinates [y] and [-y]. *)
Definition curvePoint_Neg (a : curvePoint) : curvePoint :=
  mkCurvePoint (cp_x a) (gfpNeg (cp_y a)) (cp_z a) gfP_zero.

(** Modelled from the spec: [G1.Neg] of bn256.go is not among the
    sources; [e.Neg(e)] negates the point [e] holds. *)
Definition G1_Neg (e : G1) : outcome G1 :=
  match G1_p e with
  | None => Panic
  | Some c => Done (mkG1 (Some (curvePoint_Neg c)))
  end.

(** ** mpc_serialization.go *)

Definition FqElementSize : Z := 32.
Definition G1CompressedSize : Z := FqElementSize + 1.
Definition G1UncompressedSize : Z := 2 * FqElementSize.

Definition serializationMask : Z := Z.shiftl 1 5 - 1.
Definition serializationCompressed : Z := Z.shiftl 1 7.
Definition serializationInfinity : Z := Z.shiftl 1 6.
Definition serializationBigY : Z := Z.shiftl 1 5.

(** The loop of [IsHigherY] over the limb indices it visits. *)
Fixpoint higher_loop (idx : list Z) (yCopy yNeg : gfP) : bool :=
  match idx with
  | [] => false
  | i :: rest =>
      if limb yCopy i >? limb yNeg i then true
      else if limb yCopy i <? limb yNeg i then false
      else higher_loop rest yCopy yNeg
  end.

(** [func (e *G1) IsHigherY() bool]:
    [for i := FpUint64Size - 1; i >= 0; i--]. *)
Definition G1_IsHigherY (e : G1) : outcome bool :=
  match G1_p e with
  | None => Panic
  | Some c =>
      let yCopy := gfP_Set (cp_y c) in
      let yNeg := gfpNeg yCopy in
      Done (higher_loop [3; 2; 1; 0] yCopy yNeg)
  end.

(** The loop of [gfpComp]. *)
Fixpoint comp_loop (idx : list Z) (a b : gfP) : Z :=
  match idx with
  | [] => 0
  | i :: rest =>
      if limb a i >? limb b i then 1
      else if limb a i =? limb b i then comp_loop rest a b
      else -1
  end.

(** [func gfpComp(a, b *gfP) int] *)
Definition gfpComp (a b : gfP) : Z := comp_loop [3; 2; 1; 0] a b.

(** [func (e *G1) EncodeCompressed() []byte]: the receiver after
    [MakeAffine] and the bytes returned. *)
Definition G1_EncodeCompressed (e : G1) : outcome (G1 * list Z) :=
  match G1_p e with
  | None => Panic
  | Some c =>
      let c := MakeAffine c in
      let e := mkG1 (Some c) in
      let ret := repeat 0 (Z.to_nat G1CompressedSize) in
      let ret := or_first ret serializationCompressed in
      if IsInfinity c then Done (e, or_first ret serializationInfinity)
      else
        higher <- G1_IsHigherY e ;;
        let ret := if higher then or_first ret serializationBigY else ret in
        let temp := montDecode (cp_x c) in
        tail <- gfP_Marshal temp (skipn 1 ret) ;;
        Done (e, firstn 1 ret ++ tail)
  end.

(** [func (e *G1) EncodeUncompressed() []byte] *)
Definition G1_EncodeUncompressed (e : G1) : outcome (G1 * list Z) :=
  match G1_p e with
  | None => Panic
  | Some c =>
      let c := MakeAffine c in
      let e := mkG1 (Some c) in
      let ret := repeat 0 (Z.to_nat G1UncompressedSize) in
      if IsInfinity c then Done (e, or_first ret serializationInfinity)
      else
        let temp := montDecode (cp_x c) in
        tail <- gfP_Marshal temp (skipn 1 ret) ;;
        let ret := firstn 1 ret ++ tail in
        let temp := montDecode (cp_y c) in
        let k := Z.to_nat G1CompressedSize in
        tail <- gfP_Marshal temp (skipn k ret) ;;
        Done (e, firstn k ret ++ tail)
  end.

(** [func getYFromMontEncodedX(x *gfP)], returning a [*gfP] and an [error] *)
Definition getYFromMontEncodedX (x : gfP) : outcome (gfP + error) :=
  let x2 := gfpMul x x in
  let x3 := gfpMul x2 x in
  let rhs := gfpAdd x3 curveB in
  let rhs := montDecode rhs in
  let rhsBig := gFpToBigInt rhs in
  match big_ModSqrt rhsBig p with
  | None => Done (inr ErrNotASquare)
  | Some yCoord =>
      yCoordGFp <- newGFpFromBigInt yCoord ;;
      Done (inl (montEncode yCoordGFp))
  end.

(** [encoding[0] & m], on a slice that is not empty. *)
Definition first_and (encoding : list Z) (m : Z) : Z :=
  Z.land (nth 0 encoding 0) m.

(** The sign fix-up that ends [DecodeCompressed]. *)
Definition fix_sign (e : G1) (encoding : list Z) : outcome G1 :=
  higher <- G1_IsHigherY e ;;
  if negb higher
  then if negb (first_and encoding serializationBigY =? 0) then G1_Neg e else Done e
  else if first_and encoding serializationBigY =? 0 then G1_Neg e else Done e.

(** [func (e *G1) DecodeCompressed(encoding []byte) error]: the
    receiver after the call and the error returned. *)
Definition G1_DecodeCompressed (e : G1) (encoding : list Z)
  : outcome (G1 * option error) :=
  if negb (Z.of_nat (length encoding) =? G1CompressedSize)
  then Done (e, Some ErrWrongSize)
  else if first_and encoding serializationCompressed =? 0
  then Done (e, Some ErrNotCompressed)
  else
    let c :=
      match G1_p e with
      | None => mkCurvePoint gfP_zero gfP_zero gfP_zero gfP_zero
      | Some c => mkCurvePoint gfP_zero gfP_zero (newGFp 1) (newGFp 1)
      end in
    let bin := encoding in
    if negb (first_and encoding serializationInfinity =? 0)
    then
      if negb (first_and encoding serializationBigY =? 0)
      then Done (mkG1 (Some c), Some ErrHighYBit)
      else if existsb (fun b => negb (b =? 0)) bin
      then Done (mkG1 (Some c), Some ErrInvalidInfinity)
      else Done (mkG1 (Some (SetInfinity c)), None)
    else
      r <- gfP_Unmarshal (cp_x c) (skipn 1 bin) ;;
      let '(x, err) := r in
      let c := mkCurvePoint x (cp_y c) (cp_z c) (cp_t c) in
      match err with
      | Some err => Done (mkG1 (Some c), Some err)
      | None =>
          let x := montEncode (cp_x c) in
          let c := mkCurvePoint x (cp_y c) (cp_z c) (cp_t c) in
          r <- getYFromMontEncodedX (cp_x c) ;;
          match r with
          | inr err => Done (mkG1 (Some c), Some err)
          | inl y =>
              let c := mkCurvePoint (cp_x c) y (cp_z c) (cp_t c) in
              e' <- fix_sign (mkG1 (Some c)) encoding ;;
              Done (e', None)
          end
      end.

(** ** Vocabulary of the statements *)

(** The integer a byte sequence spells, most significant byte first. *)
Definition be_value (buf : list Z) : Z :=
  fold_left (fun acc b => acc * 256 + b) buf 0.

(** Eight bytes as one limb, most significant byte first. *)
Definition be_limb (b0 b1 b2 b3 b4 b5 b6 b7 : Z) : Z :=
  b0 * 2 ^ 56 + b1 * 2 ^ 48 + b2 * 2 ^ 40 + b3 * 2 ^ 32
  + b4 * 2 ^ 24 + b5 * 2 ^ 16 + b6 * 2 ^ 8 + b7.

(** The sum of two limb arrays, limb by limb, each sum a [uint64]. *)
Definition limbwise_add (a b : gfP) : gfP :=
  mkGfP (wrap64 (l0 a + l0 b)) (wrap64 (l1 a + l1 b))
        (wrap64 (l2 a + l2 b)) (wrap64 (l3 a + l3 b)).

(** Both components are field elements. *)
Definition gfP2_valid (a : gfP2) : Prop :=
  gfP_valid (gfP2_x a) /\ gfP_valid (gfP2_y a).

(** The point at infinity and the generator [(1, 2)] of G1, as the
    package holds them: affine, coordinates in Montgomery form. *)
Definition G1_infinity : G1 :=
  mkG1 (Some (SetInfinity (mkCurvePoint gfP_zero gfP_zero gfP_zero gfP_zero))).

Definition G1_generator : G1 :=
  mkG1 (Some (mkCurvePoint (newGFp 1) (newGFp 2) (newGFp 1) (newGFp 1))).

(** An error returned for a coordinate that is not below the modulus. *)
Definition coordinate_error (err : option error) : bool :=
  match err with
  | Some ErrExceedsModulus | Some ErrEqualsModulus => true
  | _ => false
  end.

(** The point [DecodeCompressed] works on once the flags are read: a
    fresh [curvePoint{}] for a nil receiver, else the receiver's with
    [x] and [y] cleared and [z] and [t] set to one. *)
Definition decode_start (e : G1) : curvePoint :=
  match G1_p e with
  | None => mkCurvePoint gfP_zero gfP_zero gfP_zero gfP_zero
  | Some _ => mkCurvePoint gfP_zero gfP_zero (newGFp 1) (newGFp 1)
  end.

(** The bytes [Marshal] writes: the limbs most significant first, each
    limb most significant byte first. *)
Definition marshal_bytes (e : gfP) : list Z :=
  flat_map (fun w => map (fun b => byte (Z.shiftr (limb e (3 - w)) (56 - 8 * b)))
                         (range 8))
           (range 4).

(** [xi = i + 9], in Montgomery form. *)
Definition gfP2_xi : gfP2 := mkGfP2 (newGFp 1) (newGFp 9).

(** The product of [n] copies of [a]. *)
Fixpoint gfP2_pow (a : gfP2) (n : nat) : gfP2 :=
  match n with
  | O => gfP2_SetOne
  | S n' => gfP2_Mul (gfP2_pow a n') a
  end.

(** A point of the curve with [x = 2], affine and in Montgomery form:
    [y^2 = 2^3 + 3 = 11] modulo [p]. *)
Definition G1_sample_point : curvePoint :=
  mkCurvePoint
    (newGFp 2)
    (montEncode (of_Z 0x23818cde28cf4ea953fe59b1c377fafd461039c17251ff4377313da64ad07e13))
    (newGFp 1) (newGFp 1).

(* ================================================================= *)
(** * Part II: theorems *)
(* ================================================================= *)

(** ** The modulus is prime

    Trial division for small numbers, Pocklington's criterion above
    them, and a chain of certificates that ends at [p]. *)

Lemma trial_division_sound fuel : forall d n,
  2 <= d -> 1 < n ->
  (forall k, 2 <= k < d -> ~ (k | n)) ->
  trial_division fuel d n = true -> Z.prime n.
Proof.
  induction fuel as [|fuel IH]; intros d n Hd Hn Hlow; simpl; [discriminate|].
  destruct (n <? d * d) eqn:Hsq.
  - intros _. apply Z.ltb_lt in Hsq. split; [exact Hn|].
    intros m Hm [c Hc].
    assert (Hc1 : 1 < c) by nia.
    destruct (Z_lt_le_dec m d) as [Hlt|Hge].
    + apply (Hlow m); [lia|]. exists c. exact Hc.
    + destruct (Z_lt_le_dec c d) as [Hlt'|Hge'].
      * apply (Hlow c); [lia|]. exists m. lia.
      * nia.
  - destruct (n mod d =? 0) eqn:Hmod; [discriminate|].
    apply Z.eqb_neq in Hmod. apply IH; [lia|exact Hn|].
    intros k Hk. destruct (Z.eq_dec k d) as [->|Hne].
    + intros Hdiv. apply Hmod. apply Z.mod_divide in Hdiv; lia.
    + apply Hlow. lia.
Qed.

Lemma small_prime_sound n : small_prime n = true -> Z.prime n.
Proof.
  unfold small_prime. intros H. apply andb_prop in H as [H1 H2].
  apply Z.ltb_lt in H1.
  apply (trial_division_sound (Z.to_nat n) 2 n); [lia|exact H1| |exact H2].
  intros k Hk. lia.
Qed.

Lemma exists_prime_divisor : forall n, 0 <= n -> 1 < n ->
  exists r, Z.prime r /\ (r | n).
Proof.
  intros n Hn. pattern n. apply Z_lt_induction; [|exact Hn].
  clear n Hn. intros n IH Hn.
  destruct (prime_dec n) as [Hp|Hnp].
  - exists n. split; [apply prime_alt; exact Hp|apply Z.divide_refl].
  - destruct (not_prime_divide n Hn Hnp) as [m [Hm Hdiv]].
    destruct (IH m) as [r [Hr Hrm]]; [lia|lia|].
    exists r. split; [exact Hr|]. eapply Z.divide_trans; eassumption.
Qed.

Lemma composite_small_factor n :
  1 < n -> ~ Z.prime n -> exists r, Z.prime r /\ (r | n) /\ r * r <= n.
Proof.
  intros Hn Hnp.
  assert (Hnp' : ~ prime n) by (intros H; apply Hnp, prime_alt, H).
  destruct (not_prime_divide n Hn Hnp') as [m [Hm [c Hc]]].
  assert (Hc1 : 1 < c) by nia.
  destruct (Z_le_gt_dec m c) as [Hle|Hgt].
  - destruct (exists_prime_divisor m) as [r [Hr Hrm]]; [lia|lia|].
    exists r. split; [exact Hr|]. split.
    + eapply Z.divide_trans; [exact Hrm|]. exists c. lia.
    + assert (r <= m) by (apply Z.divide_pos_le; [lia|exact Hrm]).
      pose proof (Z.prime_ge_2 r Hr). nia.
  - destruct (exists_prime_divisor c) as [r [Hr Hrc]]; [lia|lia|].
    exists r. split; [exact Hr|]. split.
    + eapply Z.divide_trans; [exact Hrc|]. exists m. lia.
    + assert (r <= c) by (apply Z.divide_pos_le; [lia|exact Hrc]).
      pose proof (Z.prime_ge_2 r Hr). nia.
Qed.

(** If [b^m] and [b^n] are both 1 modulo [r], so is [b^(gcd m n)]:
    Euclid's algorithm on the exponents. *)
Lemma pow_mod_gcd b r : 1 < r -> forall n, 0 <= n -> forall m, 0 <= m ->
  b ^ m mod r = 1 -> b ^ n mod r = 1 -> b ^ (Z.gcd m n) mod r = 1.
Proof.
  intros Hr n Hn. pattern n. apply Z_lt_induction; [|exact Hn].
  clear n Hn. intros n IH m Hm Hbm Hbn.
  destruct (Z.eq_dec n 0) as [->|Hn0].
  - rewrite Z.gcd_0_r, Z.abs_eq by lia. exact Hbm.
  - assert (Hnpos : 0 < n).
    { destruct (Z_lt_le_dec n 0); [|lia].
      rewrite Z.pow_neg_r in Hbn by lia. rewrite Z.mod_0_l in Hbn; lia. }
    pose proof (Z.mod_pos_bound m n Hnpos) as Hbound.
    assert (Hrem : b ^ (m mod n) mod r = 1).
    { rewrite (Z.div_mod m n) in Hbm at 1 by lia.
      rewrite Z.pow_add_r in Hbm
        by (try apply Z.mul_nonneg_nonneg; try apply Z.div_pos; lia).
      rewrite Z.pow_mul_r in Hbm by (try apply Z.div_pos; lia).
      rewrite <- Z.mul_mod_idemp_l in Hbm by lia.
      rewrite <- Z.mod_pow_l in Hbm.
      rewrite Hbn in Hbm. rewrite Z.pow_1_l in Hbm by (apply Z.div_pos; lia).
      rewrite Z.mod_1_l in Hbm by lia. rewrite Z.mul_1_l in Hbm. exact Hbm. }
    specialize (IH (m mod n) Hbound n (Z.lt_le_incl _ _ Hnpos) Hbn Hrem).
    rewrite Z.gcd_mod_r in IH. rewrite Z.gcd_comm. exact IH.
Qed.

Lemma strictly_decreasing_head q rest :
  strictly_decreasing (q :: rest) = true ->
  Forall (fun x => x < q) rest /\ strictly_decreasing rest = true.
Proof.
  revert q. induction rest as [|x rest IH]; intros q H.
  - split; [constructor|reflexivity].
  - simpl in H. apply andb_prop in H as [Hlt Hrest].
    apply Z.ltb_lt in Hlt. split; [|exact Hrest].
    constructor; [exact Hlt|].
    destruct (IH x Hrest) as [Hall _].
    eapply Forall_impl; [|exact Hall]. simpl. intros; lia.
Qed.

Lemma prime_divides_list_prod q l :
  Z.prime q -> (q | list_prod l) -> exists x, In x l /\ (q | x).
Proof.
  intros Hq. induction l as [|x l IH]; simpl; intros Hdiv.
  - exfalso. pose proof (Z.prime_ge_2 q Hq).
    apply Z.divide_1_r_nonneg in Hdiv; lia.
  - apply Z.divide_prime_mul in Hdiv; [|exact Hq]. destruct Hdiv as [Hx|Hl].
    + exists x. split; [left; reflexivity|exact Hx].
    + destruct (IH Hl) as [y [Hin Hy]].
      exists y. split; [right; exact Hin|exact Hy].
Qed.

Lemma list_prod_primes_pos qs : Forall Z.prime qs -> 0 < list_prod qs.
Proof.
  induction 1 as [|q l Hq _ IH]; simpl; [lia|].
  pose proof (Z.prime_ge_2 q Hq). nia.
Qed.

Lemma distinct_primes_prod_divides qs M :
  Forall Z.prime qs -> strictly_decreasing qs = true ->
  Forall (fun q => (q | M)) qs -> (list_prod qs | M).
Proof.
  induction qs as [|q rest IH]; intros Hprimes Hdec Hdiv.
  - simpl. apply Z.divide_1_l.
  - inversion Hprimes as [|? ? Hq Hrest]; subst.
    inversion Hdiv as [|? ? HqM HrestM]; subst.
    destruct (strictly_decreasing_head q rest Hdec) as [Hlt Hdec'].
    specialize (IH Hrest Hdec' HrestM).
    assert (Hrel : Z.gcd (list_prod rest) q = 1).
    { rewrite Z.gcd_comm. apply Z.coprime_prime_l; [exact Hq|].
      intros Hbad.
      destruct (prime_divides_list_prod q rest Hq Hbad) as [x [Hin Hx]].
      rewrite Forall_forall in Hrest, Hlt.
      pose proof (Z.divide_prime_prime q x Hq (Hrest x Hin) Hx).
      specialize (Hlt x Hin). lia. }
    destruct HqM as [k Hk]. subst M. simpl.
    assert (Hk' : (list_prod rest | k)).
    { apply Z.gauss with (m := q); [|exact Hrel]. rewrite Z.mul_comm. exact IH. }
    destruct Hk' as [j Hj]. exists j. subst k. ring.
Qed.

(** Fermat's little theorem, from the Standard Library's [Zmod]. *)
Lemma fermat_little r a : Z.prime r -> a mod r <> 0 -> a ^ (r - 1) mod r = 1.
Proof. intros Hr Ha. apply Zmod.ZmodInv.Z.fermat_nz; assumption. Qed.

(** The core of Pocklington's theorem: every prime divisor [r] of [N]
    is 1 modulo each certified prime divisor [q] of [N - 1]. *)
Lemma pocklington_factor N a q r :
  1 < N -> Z.prime q -> Z.prime r -> (r | N) -> (q | N - 1) ->
  a ^ (N - 1) mod N = 1 ->
  Z.gcd (a ^ ((N - 1) / q) mod N - 1) N = 1 ->
  (q | r - 1).
Proof.
  intros HN Hq Hr HrN HqN Hfer Hgcd.
  pose proof (Z.prime_ge_2 q Hq) as Hq2. pose proof (Z.prime_ge_2 r Hr) as Hr2.
  set (b := a ^ ((N - 1) / q)) in *.
  assert (HE : (N - 1) = (N - 1) / q * q).
  { destruct HqN as [c Hc]. rewrite Hc. rewrite Z.div_mul by lia. reflexivity. }
  assert (Hdivpos : 0 <= (N - 1) / q) by (apply Z.div_pos; lia).
  assert (Hdown : forall u v, u mod N = v mod N -> u mod r = v mod r).
  { intros u v Huv. destruct HrN as [c Hc].
    rewrite (Z.div_mod u N), (Z.div_mod v N) by lia. rewrite Huv, Hc.
    rewrite !(Z.add_comm (_ * _)).
    replace (c * r * (u / (c * r))) with ((c * (u / (c * r))) * r) by ring.
    replace (c * r * (v / (c * r))) with ((c * (v / (c * r))) * r) by ring.
    rewrite !Z.mod_add by lia. reflexivity. }
  assert (Har : a ^ (N - 1) mod r = 1).
  { rewrite (Hdown (a ^ (N - 1)) 1); [apply Z.mod_1_l; lia|].
    rewrite Hfer. symmetry. apply Z.mod_1_l. lia. }
  assert (Hbq : b ^ q mod r = 1).
  { unfold b. rewrite <- Z.pow_mul_r by lia. rewrite <- HE. exact Har. }
  assert (Hb1 : b mod r <> 1).
  { intros Hb.
    assert (Hdiv : (r | b mod N - 1)).
    { apply Z.mod_divide; [lia|].
      rewrite Zminus_mod. rewrite (Hdown (b mod N) b) by (apply Z.mod_mod; lia).
      rewrite Hb. rewrite Z.mod_1_l by lia. reflexivity. }
    assert (Hr1 : (r | 1)).
    { rewrite <- Hgcd. apply Z.gcd_greatest; [exact Hdiv|exact HrN]. }
    apply Z.divide_1_r_nonneg in Hr1; lia. }
  assert (Hanz : a mod r <> 0).
  { intros Ha0. rewrite <- Z.mod_pow_l in Har. rewrite Ha0 in Har.
    rewrite Z.pow_0_l in Har by lia. rewrite Z.mod_0_l in Har; lia. }
  assert (Hbr : b ^ (r - 1) mod r = 1).
  { unfold b. rewrite <- Z.pow_mul_r by lia.
    rewrite Z.mul_comm. rewrite Z.pow_mul_r by lia.
    rewrite <- Z.mod_pow_l.
    rewrite (fermat_little r a Hr Hanz).
    rewrite Z.pow_1_l by lia. apply Z.mod_1_l. lia. }
  pose proof (pow_mod_gcd b r ltac:(lia) (r - 1) ltac:(lia) q ltac:(lia) Hbq Hbr)
    as Hg.
  destruct (Z.BoolSpec_divide_nz q (r - 1) ltac:(lia)) as [Hyes|Hno];
    [exact Hyes|exfalso].
  rewrite (Z.coprime_prime_l q (r - 1) Hq Hno), Z.pow_1_r in Hg. contradiction.
Qed.

Theorem pocklington N a qs :
  pock_check N a qs = true -> Forall Z.prime qs -> Z.prime N.
Proof.
  unfold pock_check. intros Hc Hprimes.
  rewrite !andb_true_iff in Hc.
  destruct Hc as [[[[Hc Hdec] Hbig] Hfer] Hall].
  apply Z.ltb_lt in Hc, Hbig. apply Z.eqb_eq in Hfer.
  rewrite Zpow_mod_correct in Hfer by lia.
  destruct (prime_dec N) as [Hp|Hnp]; [apply prime_alt; exact Hp|exfalso].
  assert (Hnp' : ~ Z.prime N) by (intros H; apply Hnp, prime_alt, H).
  destruct (composite_small_factor N Hc Hnp') as [r [Hr [HrN Hsmall]]].
  pose proof (Z.prime_ge_2 r Hr) as Hr2.
  assert (Hdivs : Forall (fun q => (q | r - 1)) qs).
  { rewrite Forall_forall. intros q Hin.
    rewrite forallb_forall in Hall. specialize (Hall q Hin).
    apply andb_prop in Hall as [Hall Hg]. apply andb_prop in Hall as [Hq0 Hqd].
    apply Z.ltb_lt in Hq0. apply Z.eqb_eq in Hqd, Hg.
    rewrite Zpow_mod_correct in Hg by lia.
    rewrite Forall_forall in Hprimes.
    apply (pocklington_factor N a q r);
      [exact Hc|apply Hprimes; exact Hin|exact Hr|exact HrN| |exact Hfer|exact Hg].
    apply Z.mod_divide; [lia|exact Hqd]. }
  pose proof (distinct_primes_prod_divides qs (r - 1) Hprimes Hdec Hdivs) as HF.
  pose proof (list_prod_primes_pos qs Hprimes) as HFpos.
  apply Z.divide_pos_le in HF; [|lia]. nia.
Qed.

Ltac certified_primes :=
  repeat (apply Forall_cons; [assumption|]); apply Forall_nil.

Theorem p_prime : Z.prime p.
Proof.
  assert (P1 : Z.prime 911) by (apply small_prime_sound; vm_compute; reflexivity).
  assert (P2 : Z.prime 3557) by (apply small_prime_sound; vm_compute; reflexivity).
  assert (P3 : Z.prime 13327) by (apply small_prime_sound; vm_compute; reflexivity).
  assert (P4 : Z.prime 173171039).
  { apply (pocklington _ 2 [13327]); [vm_compute; reflexivity|certified_primes]. }
  assert (P5 : Z.prime 1263766531).
  { apply (pocklington _ 2 [3557; 911]); [vm_compute; reflexivity|certified_primes]. }
  assert (P6 : Z.prime 35385462869).
  { apply (pocklington _ 2 [1263766531]); [vm_compute; reflexivity|certified_primes]. }
  assert (P7 : Z.prime 2480874801745591).
  { apply (pocklington _ 2 [35385462869]); [vm_compute; reflexivity|certified_primes]. }
  assert (P8 : Z.prime 13427688667394608761327070753331941386769).
  { apply (pocklington _ 2 [2480874801745591; 173171039]);
      [vm_compute; reflexivity|certified_primes]. }
  apply (pocklington _ 2 [13427688667394608761327070753331941386769]);
    [vm_compute; reflexivity|certified_primes].
Qed.

(** ** Limb arrays and the integers they stand for *)

Lemma p_bounds : 0 < p < 2 ^ 256.
Proof. split; reflexivity. Qed.

Lemma to_Z_of_Z v : 0 <= v < 2 ^ 256 -> to_Z (of_Z v) = v.
Proof.
  intros Hv. unfold to_Z, of_Z; cbn [l0 l1 l2 l3].
  change (2 ^ 128) with (2 ^ 64 * 2 ^ 64).
  change (2 ^ 192) with (2 ^ 64 * 2 ^ 64 * 2 ^ 64).
  change (2 ^ 256) with (2 ^ 64 * 2 ^ 64 * 2 ^ 64 * 2 ^ 64) in Hv.
  rewrite <- !Z.div_div by lia.
  set (B := 2 ^ 64) in *. assert (HB : 0 < B) by (unfold B; lia).
  assert (Hsmall : v / B / B / B < B).
  { repeat (apply Z.div_lt_upper_bound; [lia|]). lia. }
  assert (Hnn : 0 <= v / B / B / B) by (repeat apply Z.div_pos; lia).
  rewrite (Z.mod_small (v / B / B / B)) by lia.
  pose proof (Z.div_mod v B ltac:(lia)).
  pose proof (Z.div_mod (v / B) B ltac:(lia)).
  pose proof (Z.div_mod (v / B / B) B ltac:(lia)).
  nia.
Qed.

Lemma of_Z_to_Z e : limbs_ok e -> of_Z (to_Z e) = e.
Proof.
  destruct e as [a0 a1 a2 a3]. unfold limbs_ok, to_Z, of_Z; cbn [l0 l1 l2 l3].
  intros (H0 & H1 & H2 & H3).
  f_equal; Z.div_mod_to_equations; lia.
Qed.

Lemma of_Z_limbs_ok v : limbs_ok (of_Z v).
Proof.
  unfold limbs_ok, of_Z; cbn [l0 l1 l2 l3].
  repeat split; apply Z.mod_pos_bound; lia.
Qed.

Lemma to_Z_bounds e : limbs_ok e -> 0 <= to_Z e < 2 ^ 256.
Proof.
  destruct e as [a0 a1 a2 a3]. unfold limbs_ok, to_Z; cbn [l0 l1 l2 l3]. lia.
Qed.

Lemma to_Z_inj a b : limbs_ok a -> limbs_ok b -> to_Z a = to_Z b -> a = b.
Proof.
  intros Ha Hb H. rewrite <- (of_Z_to_Z a Ha), <- (of_Z_to_Z b Hb), H. reflexivity.
Qed.

Lemma mod_p_bounds v : 0 <= v mod p < p.
Proof. apply Z.mod_pos_bound. apply p_bounds. Qed.

Lemma to_Z_of_Z_mod v : to_Z (of_Z (v mod p)) = v mod p.
Proof.
  apply to_Z_of_Z. pose proof (mod_p_bounds v). pose proof p_bounds. lia.
Qed.

Lemma of_Z_mod_valid v : gfP_valid (of_Z (v mod p)).
Proof.
  split; [apply of_Z_limbs_ok|]. rewrite to_Z_of_Z_mod. apply mod_p_bounds.
Qed.

Lemma gfP_Set_id f : gfP_Set f = f.
Proof. destruct f; reflexivity. Qed.

Lemma gfP_eqb_eq a b : gfP_eqb a b = true <-> a = b.
Proof.
  destruct a, b. unfold gfP_eqb; cbn [l0 l1 l2 l3].
  rewrite !andb_true_iff, !Z.eqb_eq. split.
  - intros [[[-> ->] ->] ->]. reflexivity.
  - intros H. inversion H. auto.
Qed.

(** ** The primitive operations and the Montgomery constants *)

Lemma to_Z_gfpMul a b : to_Z (gfpMul a b) = (to_Z a * to_Z b * Rinv) mod p.
Proof. apply to_Z_of_Z_mod. Qed.

Lemma to_Z_gfpAdd a b : to_Z (gfpAdd a b) = (to_Z a + to_Z b) mod p.
Proof. apply to_Z_of_Z_mod. Qed.

Lemma to_Z_gfpSub a b : to_Z (gfpSub a b) = (to_Z a - to_Z b) mod p.
Proof. apply to_Z_of_Z_mod. Qed.

Lemma to_Z_gfpNeg a : to_Z (gfpNeg a) = (- to_Z a) mod p.
Proof. apply to_Z_of_Z_mod. Qed.

Lemma gfpMul_valid a b : gfP_valid (gfpMul a b).
Proof. apply of_Z_mod_valid. Qed.

Lemma gfpNeg_valid a : gfP_valid (gfpNeg a).
Proof. apply of_Z_mod_valid. Qed.

Lemma R_Rinv : (R * Rinv) mod p = 1.
Proof. reflexivity. Qed.

Lemma to_Z_p2 : to_Z p2 = p.
Proof. reflexivity. Qed.

Lemma to_Z_invert_bits : to_Z invert_bits = p - 2.
Proof. reflexivity. Qed.

Lemma to_Z_rN1 : to_Z rN1 = Rinv.
Proof. reflexivity. Qed.

Lemma to_Z_r2 : to_Z r2 = (R * R) mod p.
Proof. reflexivity. Qed.

Lemma to_Z_r3 : to_Z r3 = (R * R * R) mod p.
Proof. reflexivity. Qed.

(** The Montgomery form of 1; mpc_serialization.go prints it as
    [0e0a77c19a07df2f666ea36f7879462c0a78eb28f5c70b3dd35d438dc58f0d9d]. *)
Lemma newGFp_one :
  to_Z (newGFp 1) = R mod p /\
  to_Z (newGFp 1) = 0x0e0a77c19a07df2f666ea36f7879462c0a78eb28f5c70b3dd35d438dc58f0d9d.
Proof. split; reflexivity. Qed.

(** Congruences modulo [p] are settled by rewriting under the ring
    operations and normalizing. *)
#[local] Existing Instances eqm_setoid Zplus_eqm Zminus_eqm Zmult_eqm Zopp_eqm.

Ltac mod_ring :=
  match goal with
  | |- ?a mod p = ?b mod p =>
      change (eqm p a b); rewrite ?Zmod_eqm;
      apply (f_equal (fun z => z mod p)); ring
  end.

(** ** gfP2: squaring *)

(** C7.  For every [gfP2] element [a], both components field
    elements, [Square(a)] is equal limb for limb, in both components, to
    [Mul(a, a)]. *)
Theorem gfP2_Square_is_Mul_self (a : gfP2) :
  gfP2_valid a -> gfP2_Square a = gfP2_Mul a a.
Proof.
  intros _.
  destruct a as [ax ay]. unfold gfP2_Square, gfP2_Mul; cbn [gfP2_x gfP2_y].
  rewrite !gfP_Set_id. f_equal.
  unfold gfpSub, gfpAdd at 1. unfold gfpMul at 1. f_equal.
  rewrite !to_Z_of_Z_mod, !to_Z_gfpMul. mod_ring.
Qed.

Lemma gfP2_Square_is_Mul_self_witness :
  gfP2_Square (mkGfP2 (newGFp 5) (newGFp 7))
  = gfP2_Mul (mkGfP2 (newGFp 5) (newGFp 7)) (mkGfP2 (newGFp 5) (newGFp 7)).
Proof.
  apply (gfP2_Square_is_Mul_self (mkGfP2 (newGFp 5) (newGFp 7))).
  split; apply gfpMul_valid.
Defined.

(** ** gfP: inversion *)

#[local] Instance Zpow_eqm : Proper (eqm p ==> eq ==> eqm p) Z.pow.
Proof.
  intros a b H e e' <-. unfold eqm in *.
  rewrite <- (Z.mod_pow_l a), <- (Z.mod_pow_l b), H. reflexivity.
Qed.

Lemma range_S n : range (S n) = range n ++ [Z.of_nat n].
Proof. unfold range. rewrite seq_S, map_app. reflexivity. Qed.

Lemma invert_bit_test L n : 0 <= n ->
  Z.land (Z.shiftr L n) 1 = (L / 2 ^ n) mod 2.
Proof.
  intros Hn. rewrite Z.shiftr_div_pow2 by lia.
  change 1 with (Z.ones 1). rewrite Z.land_ones by lia. reflexivity.
Qed.

Ltac eqm_goal :=
  match goal with |- ?a mod p = ?b mod p => change (eqm p a b) end.
Ltac eqm_hyp H :=
  match type of H with ?a mod p = ?b mod p => change (eqm p a b) in H end.
Ltac eqm_ring := unfold eqm; apply (f_equal (fun z => z mod p)); ring.

Lemma R_Rinv_eqm : eqm p (R * Rinv) 1.
Proof. reflexivity. Qed.

Lemma invert_inner_loop w a n : forall s0 q0,
  to_Z q0 mod p = (a * R) mod p ->
  to_Z (snd (fold_left (invert_step w) (range n) (s0, q0))) mod p
    = (a ^ (2 ^ Z.of_nat n) * R) mod p /\
  to_Z (fst (fold_left (invert_step w) (range n) (s0, q0))) mod p
    = (to_Z s0 * a ^ (limb invert_bits w mod 2 ^ Z.of_nat n)) mod p.
Proof.
  intros s0 q0 Hq0. induction n as [|n [IHq IHs]].
  - cbn [range seq map fold_left fst snd]. split.
    + rewrite Hq0. change (2 ^ Z.of_nat 0) with 1. rewrite Z.pow_1_r. reflexivity.
    + change (2 ^ Z.of_nat 0) with 1. rewrite Z.mod_1_r, Z.pow_0_r, Z.mul_1_r.
      reflexivity.
  - rewrite range_S, fold_left_app.
    destruct (fold_left (invert_step w) (range n) (s0, q0)) as [s q].
    cbn [fst snd] in IHq, IHs. cbn [fold_left invert_step fst snd].
    set (L := limb invert_bits w) in *.
    assert (Hpow : 2 ^ Z.of_nat (S n) = 2 ^ Z.of_nat n * 2).
    { rewrite Nat2Z.inj_succ, Z.pow_succ_r by lia. ring. }
    assert (H2n : 0 < 2 ^ Z.of_nat n) by (apply Z.pow_pos_nonneg; lia).
    eqm_hyp IHq. eqm_hyp IHs.
    split.
    + rewrite to_Z_gfpMul. rewrite Hpow, Z.pow_mul_r by lia.
      eqm_goal. rewrite Zmod_eqm, IHq.
      transitivity (a ^ 2 ^ Z.of_nat n * (a ^ 2 ^ Z.of_nat n * R) * (R * Rinv));
        [eqm_ring|].
      rewrite R_Rinv_eqm. eqm_ring.
    + rewrite Hpow, Z.rem_mul_r by lia.
      rewrite invert_bit_test by lia. fold L.
      pose proof (Z.mod_pos_bound (L / 2 ^ Z.of_nat n) 2 ltac:(lia)) as Hbit.
      pose proof (Z.mod_pos_bound L (2 ^ Z.of_nat n) H2n) as Hlow.
      destruct (Z.eqb_spec ((L / 2 ^ Z.of_nat n) mod 2) 1) as [Hb|Hb].
      * rewrite Hb, Z.mul_1_r. rewrite Z.pow_add_r by lia.
        rewrite to_Z_gfpMul. eqm_goal. rewrite Zmod_eqm, IHq, IHs.
        transitivity (to_Z s0 * a ^ (L mod 2 ^ Z.of_nat n) * a ^ 2 ^ Z.of_nat n
                      * (R * Rinv)); [eqm_ring|].
        rewrite R_Rinv_eqm. eqm_ring.
      * assert (Hz : (L / 2 ^ Z.of_nat n) mod 2 = 0) by lia.
        rewrite Hz, Z.mul_0_r, Z.add_0_r. exact IHs.
Qed.

Lemma invert_exponent a :
  a ^ (limb invert_bits 0 mod 2 ^ Z.of_nat 64)
  * (a ^ 2 ^ Z.of_nat 64) ^ (limb invert_bits 1 mod 2 ^ Z.of_nat 64)
  * ((a ^ 2 ^ Z.of_nat 64) ^ 2 ^ Z.of_nat 64) ^ (limb invert_bits 2 mod 2 ^ Z.of_nat 64)
  * (((a ^ 2 ^ Z.of_nat 64) ^ 2 ^ Z.of_nat 64) ^ 2 ^ Z.of_nat 64)
      ^ (limb invert_bits 3 mod 2 ^ Z.of_nat 64)
  = a ^ (p - 2).
Proof.
  rewrite <- !Z.pow_mul_r by (vm_compute; discriminate).
  rewrite <- !Z.pow_add_r by (vm_compute; discriminate).
  f_equal.
Qed.

Lemma invert_chain s1 s2 s3 s4 e0 e1 e2 e3 :
  s1 mod p = (Rinv * e0) mod p ->
  s2 mod p = (s1 * e1) mod p ->
  s3 mod p = (s2 * e2) mod p ->
  s4 mod p = (s3 * e3) mod p ->
  ((s4 * ((R * R * R) mod p) * Rinv) mod p) mod p = (e0 * e1 * e2 * e3 * R) mod p.
Proof.
  intros H1 H2 H3 H4. eqm_hyp H1. eqm_hyp H2. eqm_hyp H3. eqm_hyp H4.
  eqm_goal. rewrite !Zmod_eqm. rewrite H4, H3, H2, H1.
  transitivity (e0 * e1 * e2 * e3 * R * ((R * Rinv) * (R * Rinv)));
    [eqm_ring|].
  rewrite R_Rinv_eqm. eqm_ring.
Qed.

Lemma fold_left_range4 (A : Type) (F : A -> Z -> A) (st : A) :
  fold_left F (range 4) st = F (F (F (F st 0) 1) 2) 3.
Proof. reflexivity. Qed.

Lemma gfP_Invert_value f :
  to_Z (gfP_Invert f) mod p = ((to_Z f * Rinv) ^ (p - 2) * R) mod p.
Proof.
  unfold gfP_Invert. rewrite fold_left_range4. cbv beta. rewrite !gfP_Set_id.
  assert (H0 : to_Z f mod p = (to_Z f * Rinv * R) mod p).
  { eqm_goal.
    transitivity (to_Z f * (R * Rinv)); [rewrite R_Rinv_eqm|]; eqm_ring. }
  destruct (invert_inner_loop 0 _ 64 rN1 f H0) as [Hq1 Hs1].
  destruct (fold_left (invert_step 0) (range 64) (rN1, f)) as [s1 q1].
  cbn [fst snd] in Hq1, Hs1.
  destruct (invert_inner_loop 1 _ 64 s1 q1 Hq1) as [Hq2 Hs2].
  destruct (fold_left (invert_step 1) (range 64) (s1, q1)) as [s2 q2].
  cbn [fst snd] in Hq2, Hs2.
  destruct (invert_inner_loop 2 _ 64 s2 q2 Hq2) as [Hq3 Hs3].
  destruct (fold_left (invert_step 2) (range 64) (s2, q2)) as [s3 q3].
  cbn [fst snd] in Hq3, Hs3.
  destruct (invert_inner_loop 3 _ 64 s3 q3 Hq3) as [_ Hs4].
  destruct (fold_left (invert_step 3) (range 64) (s3, q3)) as [s4 q4].
  cbn [fst snd] in Hs4.
  rewrite gfP_Set_id, to_Z_gfpMul, to_Z_r3. rewrite to_Z_rN1 in Hs1.
  rewrite (invert_chain _ _ _ _ _ _ _ _ Hs1 Hs2 Hs3 Hs4).
  rewrite invert_exponent. reflexivity.
Qed.

Lemma gfP_Invert_valid f : gfP_valid (gfP_Invert f).
Proof. unfold gfP_Invert. destruct (fold_left _ _ _) as [s q]. rewrite gfP_Set_id. apply gfpMul_valid. Qed.

(** C8.  For every nonzero field element [f], multiplying [f] by
    [Invert(f)] and decoding the product out of Montgomery form gives
    the multiplicative identity 1. *)
Theorem gfP_Invert_law (f : gfP) :
  gfP_valid f -> f <> gfP_zero ->
  montDecode (gfpMul f (gfP_Invert f)) = gfP_lit1.
Proof.
  intros [Hlimbs Hlt] Hnz.
  pose proof (to_Z_bounds f Hlimbs) as Hb.
  assert (Hfnz : to_Z f <> 0).
  { intros H0. apply Hnz. apply to_Z_inj; [exact Hlimbs|repeat split; cbn; lia|].
    rewrite H0. reflexivity. }
  set (a := to_Z f * Rinv).
  assert (Ha : a mod p <> 0).
  { intros Ha0. 
    assert (Hf0 : to_Z f mod p = 0).
    { assert (H0 : to_Z f mod p = (a * R) mod p).
      { unfold a. eqm_goal.
        transitivity (to_Z f * (R * Rinv)); [rewrite R_Rinv_eqm|]; eqm_ring. }
      rewrite H0, <- Z.mul_mod_idemp_l, Ha0 by (pose proof p_bounds; lia).
      reflexivity. }
    rewrite Z.mod_small in Hf0 by lia. contradiction. }
  unfold montDecode. unfold gfpMul at 1.
  assert (Hval : (to_Z (gfpMul f (gfP_Invert f)) * to_Z gfP_lit1 * Rinv) mod p
                 = 1 mod p).
  { rewrite to_Z_gfpMul.
    pose proof (gfP_Invert_value f) as Hinv. fold a in Hinv. eqm_hyp Hinv.
    eqm_goal. rewrite Zmod_eqm, Hinv.
    assert (Hfer : eqm p (a ^ (p - 2) * a) 1).
    { replace (a ^ (p - 2) * a) with (a ^ (p - 1)).
      - unfold eqm. rewrite (fermat_little p a p_prime Ha). reflexivity.
      - replace (p - 1) with (Z.succ (p - 2)) by lia.
        rewrite Z.pow_succ_r by (vm_compute; discriminate). apply Z.mul_comm. }
    change (to_Z gfP_lit1) with 1.
    revert Hfer. generalize (a ^ (p - 2)). intros e Hfer.
    transitivity ((e * a) * ((R * Rinv) * 1)); [unfold a; eqm_ring|].
    rewrite R_Rinv_eqm, Hfer. reflexivity. }
  rewrite Hval. reflexivity.
Qed.

Lemma gfP_Invert_law_witness :
  montDecode (gfpMul (newGFp 2) (gfP_Invert (newGFp 2))) = gfP_lit1.
Proof.
  apply gfP_Invert_law.
  - apply gfpMul_valid.
  - vm_compute. discriminate.
Defined.

(** ** G1: the canonical sign *)

Lemma higher_loop_spec a b :
  limbs_ok a -> limbs_ok b ->
  higher_loop [3; 2; 1; 0] a b = (to_Z a >? to_Z b).
Proof.
  destruct a as [a0 a1 a2 a3], b as [b0 b1 b2 b3].
  unfold limbs_ok, to_Z; cbn [l0 l1 l2 l3 higher_loop limb].
  intros (Ha0 & Ha1 & Ha2 & Ha3) (Hb0 & Hb1 & Hb2 & Hb3).
  repeat match goal with
         | |- context [?u >? ?v] => destruct (Z.gtb_spec u v)
         | |- context [?u <? ?v] => destruct (Z.ltb_spec u v)
         end; try reflexivity; exfalso; lia.
Qed.

Lemma gfpNeg_value y : 0 < to_Z y < p -> to_Z (gfpNeg y) = p - to_Z y.
Proof.
  intros Hy. rewrite to_Z_gfpNeg.
  pose proof p_bounds.
  rewrite <- (Z.mod_add _ 1) by lia.
  rewrite Z.mod_small by lia. ring.
Qed.

Lemma gfpNeg_zero : gfpNeg gfP_zero = gfP_zero.
Proof. reflexivity. Qed.

Lemma gfpNeg_involutive y : gfP_valid y -> gfpNeg (gfpNeg y) = y.
Proof.
  intros [Hl Hlt]. pose proof (to_Z_bounds y Hl) as Hb.
  apply to_Z_inj; [apply of_Z_limbs_ok|exact Hl|].
  destruct (Z.eq_dec (to_Z y) 0) as [H0|H0].
  - rewrite !to_Z_gfpNeg, H0. reflexivity.
  - rewrite (gfpNeg_value (gfpNeg y)); rewrite gfpNeg_value; lia.
Qed.

(** C5.  [IsHigherY] is true exactly when the [y] coordinate is
    greater than its negation [-y], both read as unsigned multi-limb
    integers, most significant limb first.  Hence exactly one of [P] and
    [-P] is higher, except when [y = 0], where neither is. *)
Theorem G1_IsHigherY_sign_law (c : curvePoint) :
  gfP_valid (cp_y c) ->
  let e := mkG1 (Some c) in
  let minus_e := mkG1 (Some (curvePoint_Neg c)) in
  G1_Neg e = Done minus_e /\
  G1_IsHigherY e = Done (to_Z (cp_y c) >? to_Z (gfpNeg (cp_y c))) /\
  (cp_y c <> gfP_zero ->
   exists b, G1_IsHigherY e = Done b /\ G1_IsHigherY minus_e = Done (negb b)) /\
  (cp_y c = gfP_zero ->
   G1_IsHigherY e = Done false /\ G1_IsHigherY minus_e = Done false).
Proof.
  intros Hv e minus_e. destruct Hv as [Hl Hlt].
  pose proof (to_Z_bounds _ Hl) as Hb.
  assert (He : G1_IsHigherY e = Done (to_Z (cp_y c) >? to_Z (gfpNeg (cp_y c)))).
  { unfold G1_IsHigherY, e; cbn [G1_p]. rewrite gfP_Set_id.
    rewrite higher_loop_spec; [reflexivity|exact Hl|apply of_Z_limbs_ok]. }
  assert (Hm : G1_IsHigherY minus_e
               = Done (to_Z (gfpNeg (cp_y c)) >? to_Z (cp_y c))).
  { unfold G1_IsHigherY, minus_e; cbn [G1_p curvePoint_Neg cp_y].
    rewrite gfP_Set_id.
    rewrite higher_loop_spec; [|apply of_Z_limbs_ok|apply of_Z_limbs_ok].
    rewrite gfpNeg_involutive by (split; assumption). reflexivity. }
  split; [reflexivity|]. split; [exact He|]. split.
  - intros Hnz. eexists. split; [exact He|]. rewrite Hm. f_equal.
    assert (Hy : to_Z (cp_y c) <> 0).
    { intros H0. apply Hnz. apply to_Z_inj; [exact Hl|apply (of_Z_limbs_ok 0)|].
      rewrite H0. reflexivity. }
    rewrite gfpNeg_value by lia.
    assert (Hodd : 2 * to_Z (cp_y c) <> p) by (unfold p; lia).
    destruct (Z.gtb_spec (p - to_Z (cp_y c)) (to_Z (cp_y c)));
      destruct (Z.gtb_spec (to_Z (cp_y c)) (p - to_Z (cp_y c)));
      try reflexivity; exfalso; lia.
  - intros H0. rewrite He, Hm, H0. split; reflexivity.
Qed.

Lemma G1_IsHigherY_sign_law_witness :
  G1_IsHigherY G1_generator = Done true /\
  (exists e, G1_Neg G1_generator = Done e /\ G1_IsHigherY e = Done false).
Proof.
  destruct (G1_IsHigherY_sign_law
              (mkCurvePoint (newGFp 1) (newGFp 2) (newGFp 1) (newGFp 1)))
    as (Hneg & Hhigh & _ & _).
  - apply gfpMul_valid.
  - split.
    + exact Hhigh.
    + eexists. split; [exact Hneg|]. vm_compute. reflexivity.
Defined.

(** ** gfP: reading bytes *)

Ltac list_of_length H :=
  repeat match type of H with
         | length ?l = S _ =>
             let b := fresh "b" in
             destruct l as [|b l]; [discriminate H|]; cbn [length] in H;
             apply eq_add_S in H
         | length ?l = O => destruct l; [clear H|discriminate H]
         end.

Ltac split_bytes_ok :=
  repeat match goal with
         | H : bytes_ok (_ :: _) |- _ => apply Forall_cons_iff in H; destruct H as [? H]
         | H : Forall _ (_ :: _) |- _ => apply Forall_cons_iff in H; destruct H as [? H]
         | H : bytes_ok [] |- _ => clear H
         | H : Forall _ [] |- _ => clear H
         end.

Lemma be_limb_bounds b0 b1 b2 b3 b4 b5 b6 b7 :
  bytes_ok [b0; b1; b2; b3; b4; b5; b6; b7] ->
  0 <= be_limb b0 b1 b2 b3 b4 b5 b6 b7 < 2 ^ 64.
Proof. intros H. split_bytes_ok. unfold be_limb. lia. Qed.

Lemma accumulate_limb l b0 b1 b2 b3 b4 b5 b6 b7 :
  bytes_ok [b0; b1; b2; b3; b4; b5; b6; b7] ->
  wrap64 (wrap64 (wrap64 (wrap64 (wrap64 (wrap64 (wrap64 (wrap64
    (l + wrap64 (Z.shiftl b0 56)) + wrap64 (Z.shiftl b1 48))
    + wrap64 (Z.shiftl b2 40)) + wrap64 (Z.shiftl b3 32))
    + wrap64 (Z.shiftl b4 24)) + wrap64 (Z.shiftl b5 16))
    + wrap64 (Z.shiftl b6 8)) + wrap64 (Z.shiftl b7 0))
  = wrap64 (l + be_limb b0 b1 b2 b3 b4 b5 b6 b7).
Proof.
  intros H. split_bytes_ok. unfold wrap64, be_limb.
  rewrite !Z.shiftl_mul_pow2 by lia.
  match goal with
  | |- ?u mod ?n = ?v mod ?n => change (eqm n u v)
  end.
  rewrite !Zmod_eqm. unfold eqm.
  apply (f_equal (fun z => z mod 2 ^ 64)). ring.
Qed.

Lemma be_value_limbs
  a0 a1 a2 a3 a4 a5 a6 a7 b0 b1 b2 b3 b4 b5 b6 b7
  c0 c1 c2 c3 c4 c5 c6 c7 d0 d1 d2 d3 d4 d5 d6 d7 :
  bytes_ok [a0; a1; a2; a3; a4; a5; a6; a7; b0; b1; b2; b3; b4; b5; b6; b7;
            c0; c1; c2; c3; c4; c5; c6; c7; d0; d1; d2; d3; d4; d5; d6; d7] ->
  of_Z (be_value [a0; a1; a2; a3; a4; a5; a6; a7; b0; b1; b2; b3; b4; b5; b6; b7;
                  c0; c1; c2; c3; c4; c5; c6; c7; d0; d1; d2; d3; d4; d5; d6; d7])
  = mkGfP (be_limb d0 d1 d2 d3 d4 d5 d6 d7) (be_limb c0 c1 c2 c3 c4 c5 c6 c7)
          (be_limb b0 b1 b2 b3 b4 b5 b6 b7) (be_limb a0 a1 a2 a3 a4 a5 a6 a7).
Proof.
  intros H.
  assert (Ha : 0 <= be_limb a0 a1 a2 a3 a4 a5 a6 a7 < 2 ^ 64).
  { apply be_limb_bounds. split_bytes_ok. repeat (apply Forall_cons; [assumption|]). apply Forall_nil. }
  assert (Hb : 0 <= be_limb b0 b1 b2 b3 b4 b5 b6 b7 < 2 ^ 64).
  { apply be_limb_bounds. split_bytes_ok. repeat (apply Forall_cons; [assumption|]). apply Forall_nil. }
  assert (Hc : 0 <= be_limb c0 c1 c2 c3 c4 c5 c6 c7 < 2 ^ 64).
  { apply be_limb_bounds. split_bytes_ok. repeat (apply Forall_cons; [assumption|]). apply Forall_nil. }
  assert (Hd : 0 <= be_limb d0 d1 d2 d3 d4 d5 d6 d7 < 2 ^ 64).
  { apply be_limb_bounds. split_bytes_ok. repeat (apply Forall_cons; [assumption|]). apply Forall_nil. }
  rewrite <- (of_Z_to_Z (mkGfP _ _ _ _)) by (repeat split; cbn [l0 l1 l2 l3]; lia).
  f_equal. unfold be_value, to_Z, be_limb; cbn [fold_left l0 l1 l2 l3]. ring.
Qed.

Lemma gfP_Unmarshal_limbs e inp :
  length inp = 32%nat -> bytes_ok inp ->
  gfP_Unmarshal e inp =
    Done (limbwise_add e (of_Z (be_value inp)),
          modulus_check [3; 2; 1; 0] (limbwise_add e (of_Z (be_value inp)))).
Proof.
  intros Hlen Hok. list_of_length Hlen.
  rewrite (be_value_limbs _ _ _ _ _ _ _ _ _ _ _ _ _ _ _ _
                          _ _ _ _ _ _ _ _ _ _ _ _ _ _ _ _ Hok).
  destruct e as [e0 e1 e2 e3]. unfold limbwise_add; cbn [l0 l1 l2 l3].
  assert (H3 := fun l => accumulate_limb l b b0 b1 b2 b3 b4 b5 b6).
  assert (H2 := fun l => accumulate_limb l b7 b8 b9 b10 b11 b12 b13 b14).
  assert (H1 := fun l => accumulate_limb l b15 b16 b17 b18 b19 b20 b21 b22).
  assert (H0 := fun l => accumulate_limb l b23 b24 b25 b26 b27 b28 b29 b30).
  rewrite <- H3, <- H2, <- H1, <- H0;
    try (split_bytes_ok; repeat (apply Forall_cons; [assumption|]); apply Forall_nil).
  reflexivity.
Qed.

Lemma limbwise_add_zero_l v : limbs_ok v -> limbwise_add gfP_zero v = v.
Proof.
  destruct v as [v0 v1 v2 v3]. unfold limbs_ok, limbwise_add, wrap64.
  cbn [l0 l1 l2 l3 gfP_zero]. intros (H0 & H1 & H2 & H3).
  rewrite !Z.add_0_l, !Z.mod_small by lia. reflexivity.
Qed.

(** C10.  [Unmarshal] adds the parsed value into the limbs the
    receiver already holds: on a 32-byte input it leaves, limb by
    limb, the sum (as a [uint64]) of the old limb and the limb of the
    big-endian value of the input.  The receiver ends as the parsed
    value exactly when every limb of it was zero before the call. *)
Theorem gfP_Unmarshal_accumulates (e : gfP) (inp : list Z) :
  limbs_ok e -> length inp = 32%nat -> bytes_ok inp ->
  let parsed := of_Z (be_value inp) in
  (exists err, gfP_Unmarshal e inp = Done (limbwise_add e parsed, err)) /\
  (limbwise_add e parsed = parsed <-> e = gfP_zero).
Proof.
  intros He Hlen Hok parsed. split.
  - eexists. apply gfP_Unmarshal_limbs; assumption.
  - pose proof (of_Z_limbs_ok (be_value inp)) as Hp. fold parsed in Hp.
    split.
    + intros Heq. destruct e as [e0 e1 e2 e3], parsed as [q0 q1 q2 q3].
      unfold limbs_ok, limbwise_add, wrap64, gfP_zero in *.
      cbn [l0 l1 l2 l3] in *.
      destruct He as (? & ? & ? & ?), Hp as (? & ? & ? & ?).
      injection Heq as E0 E1 E2 E3.
      f_equal; Z.div_mod_to_equations; lia.
    + intros ->. apply limbwise_add_zero_l. exact Hp.
Qed.

Lemma gfP_Unmarshal_accumulates_witness :
  exists err,
    gfP_Unmarshal (mkGfP 1 2 3 4) (repeat 0 31 ++ [2])
    = Done (mkGfP 3 2 3 4, err).
Proof.
  destruct (gfP_Unmarshal_accumulates (mkGfP 1 2 3 4) (repeat 0 31 ++ [2]))
    as [[err Herr] _].
  - repeat split; cbn [l0 l1 l2 l3]; lia.
  - reflexivity.
  - repeat (apply Forall_cons; [lia|]). apply Forall_nil.
  - exists err. exact Herr.
Defined.

(** ** gfP2: exponentiation *)

Lemma gfP2_Set_id a : gfP2_Set a = a.
Proof. destruct a as [ax ay]. unfold gfP2_Set; cbn [gfP2_x gfP2_y]. rewrite !gfP_Set_id. reflexivity. Qed.

Lemma of_Z_mod_id v e : gfP_valid e -> v mod p = to_Z e mod p -> of_Z (v mod p) = e.
Proof.
  intros [Hl Hlt] H. pose proof (to_Z_bounds e Hl).
  rewrite H, Z.mod_small by lia. apply of_Z_to_Z. exact Hl.
Qed.

Lemma to_Z_newGFp_1 : to_Z (newGFp 1) = R mod p.
Proof. reflexivity. Qed.

Lemma gfP2_Mul_one_l a : gfP2_valid a -> gfP2_Mul gfP2_SetOne a = a.
Proof.
  destruct a as [ax ay]. unfold gfP2_valid; cbn [gfP2_x gfP2_y]. intros [Hx Hy].
  unfold gfP2_Mul, gfP2_SetOne; cbn [gfP2_x gfP2_y]. rewrite !gfP_Set_id.
  f_equal.
  - unfold gfpAdd. apply of_Z_mod_id; [exact Hx|].
    rewrite !to_Z_gfpMul, to_Z_newGFp_1. change (to_Z gfP_zero) with 0.
    eqm_goal. rewrite !Zmod_eqm.
    transitivity (to_Z ax * (R * Rinv)); [eqm_ring|]. rewrite R_Rinv_eqm. eqm_ring.
  - unfold gfpSub. apply of_Z_mod_id; [exact Hy|].
    rewrite !to_Z_gfpMul, to_Z_newGFp_1. change (to_Z gfP_zero) with 0.
    eqm_goal. rewrite !Zmod_eqm.
    transitivity (to_Z ay * (R * Rinv)); [eqm_ring|]. rewrite R_Rinv_eqm. eqm_ring.
Qed.

Lemma gfP2_Exp_counting_0 a : gfP2_Exp_counting a 0 = (gfP2_SetOne, 0%nat).
Proof. reflexivity. Qed.

Lemma gfP2_Exp_counting_1 a :
  gfP2_Exp_counting a 1 = (gfP2_Mul gfP2_SetOne a, 1%nat).
Proof.
  unfold gfP2_Exp_counting. rewrite gfP2_Set_id.
  change (big_Bytes 1) with [1]. 
  cbv [fold_left range seq map exp_step Z.of_nat Pos.of_succ_nat Pos.succ].
  cbn [Z.sub Z.add Z.opp Z.pos_sub Pos.pred_double Z.succ_double Z.pred_double Z.double Z.pow Z.pow_pos Pos.iter Z.mul Pos.mul Pos.add Z.land Pos.land Z.eqb negb Z.of_N Pos.succ].
  rewrite gfP2_Set_id. reflexivity.
Qed.

(** C9.  [Exp(a, 0)] is the multiplicative identity of the extension
    field, [(0, 1)] in Montgomery form, reached without a single call of
    [Mul]; and [Exp(a, 1)] is [a]. *)
Theorem gfP2_Exp_identities (a : gfP2) :
  gfP2_valid a ->
  gfP2_Exp_counting a 0 = (gfP2_SetOne, 0%nat) /\
  gfP2_Exp a 0 = mkGfP2 gfP_zero (montEncode gfP_lit1) /\
  (forall b, gfP2_valid b -> gfP2_Mul (gfP2_Exp a 0) b = b) /\
  gfP2_Exp a 1 = a.
Proof.
  intros Ha. unfold gfP2_Exp. rewrite gfP2_Exp_counting_0, gfP2_Exp_counting_1.
  cbn [fst]. repeat split.
  - intros b Hb. apply gfP2_Mul_one_l. exact Hb.
  - apply gfP2_Mul_one_l. exact Ha.
Qed.

Lemma gfP2_Exp_identities_witness :
  gfP2_Exp (mkGfP2 (newGFp 5) (newGFp 7)) 1 = mkGfP2 (newGFp 5) (newGFp 7).
Proof.
  apply (gfP2_Exp_identities (mkGfP2 (newGFp 5) (newGFp 7))).
  split; apply gfpMul_valid.
Defined.

(** ** G1: encoding *)

(** C3 fails on the code: for every point that is not the point at
    infinity [EncodeUncompressed] allocates [G1UncompressedSize = 64]
    bytes and panics when [Marshal] writes the last byte of [y] past the
    end of [ret[G1CompressedSize:]]; no 65-byte sequence is produced. *)
Theorem G1_EncodeUncompressed_panics (e : G1) (c : curvePoint) :
  G1_p e = Some c -> IsInfinity (MakeAffine c) = false ->
  G1_EncodeUncompressed e = Panic.
Proof.
  intros Hp Hinf. unfold G1_EncodeUncompressed. rewrite Hp, Hinf.
  generalize (montDecode (cp_x (MakeAffine c))) (montDecode (cp_y (MakeAffine c))).
  intros tx ty. reflexivity.
Qed.

(** C4, amended.  Encoding the point at infinity in compressed form
    gives the 33 bytes whose first is [0xC0], the COMPRESSED and the
    INFINITY bit, and whose other 32 are zero. *)
Theorem G1_EncodeCompressed_infinity (e : G1) (c : curvePoint) :
  G1_p e = Some c -> IsInfinity (MakeAffine c) = true ->
  G1_EncodeCompressed e = Done (mkG1 (Some (MakeAffine c)), 0xC0 :: repeat 0 32).
Proof.
  intros Hp Hinf. unfold G1_EncodeCompressed. rewrite Hp, Hinf. reflexivity.
Qed.

Lemma G1_EncodeUncompressed_panics_witness :
  G1_EncodeUncompressed G1_generator = Panic.
Proof.
  apply (G1_EncodeUncompressed_panics G1_generator
           (mkCurvePoint (newGFp 1) (newGFp 2) (newGFp 1) (newGFp 1))).
  - reflexivity.
  - vm_compute. reflexivity.
Defined.

Lemma G1_EncodeCompressed_infinity_witness :
  exists e, G1_EncodeCompressed G1_infinity = Done (e, 0xC0 :: repeat 0 32).
Proof.
  eexists.
  apply (G1_EncodeCompressed_infinity G1_infinity
           (SetInfinity (mkCurvePoint gfP_zero gfP_zero gfP_zero gfP_zero))).
  - reflexivity.
  - vm_compute. reflexivity.
Defined.

(** C4 as stated fails: the first byte is not [0x40]. *)
Lemma G1_EncodeCompressed_infinity_not_0x40 :
  ~ (exists e, G1_EncodeCompressed G1_infinity = Done (e, 0x40 :: repeat 0 32)).
Proof.
  intros [e He]. vm_compute in He. discriminate He.
Qed.

(** ** G1: decoding a coordinate *)

Lemma modulus_check_spec e :
  limbs_ok e ->
  modulus_check [3; 2; 1; 0] e =
    if to_Z e <? p then None
    else if to_Z e >? p then Some ErrExceedsModulus
    else Some ErrEqualsModulus.
Proof.
  destruct e as [e0 e1 e2 e3].
  unfold limbs_ok, to_Z, p; cbn [l0 l1 l2 l3 modulus_check limb p2].
  intros (H0 & H1 & H2 & H3).
  repeat match goal with
         | |- context [?u >? ?v] => destruct (Z.gtb_spec u v)
         | |- context [?u <? ?v] => destruct (Z.ltb_spec u v)
         end; try reflexivity; exfalso; lia.
Qed.

Lemma be_value_32_bounds inp :
  length inp = 32%nat -> bytes_ok inp -> 0 <= be_value inp < 2 ^ 256.
Proof.
  intros Hlen Hok. list_of_length Hlen. split_bytes_ok.
  unfold be_value; cbn [fold_left]. lia.
Qed.

Lemma to_Z_parsed inp :
  length inp = 32%nat -> bytes_ok inp -> to_Z (of_Z (be_value inp)) = be_value inp.
Proof. intros. apply to_Z_of_Z. apply be_value_32_bounds; assumption. Qed.

Lemma payload_shape enc :
  length enc = 33%nat -> bytes_ok enc ->
  length (skipn 1 enc) = 32%nat /\ bytes_ok (skipn 1 enc).
Proof.
  intros Hlen Hok. destruct enc as [|f rest]; [discriminate|].
  cbn [skipn]. split; [cbn in Hlen; lia|].
  apply Forall_cons_iff in Hok. apply Hok.
Qed.

Lemma G1_DecodeCompressed_coordinate e enc :
  length enc = 33%nat -> bytes_ok enc ->
  first_and enc serializationCompressed <> 0 ->
  first_and enc serializationInfinity = 0 ->
  let c0 := decode_start e in
  let X := of_Z (be_value (skipn 1 enc)) in
  G1_DecodeCompressed e enc =
    match modulus_check [3; 2; 1; 0] X with
    | Some err => Done (mkG1 (Some (mkCurvePoint X gfP_zero (cp_z c0) (cp_t c0))), Some err)
    | None =>
        r <- getYFromMontEncodedX (montEncode X) ;;
        match r with
        | inr err =>
            Done (mkG1 (Some (mkCurvePoint (montEncode X) gfP_zero (cp_z c0) (cp_t c0))),
                  Some err)
        | inl y =>
            e' <- fix_sign (mkG1 (Some (mkCurvePoint (montEncode X) y (cp_z c0) (cp_t c0)))) enc ;;
            Done (e', None)
        end
    end.
Proof.
  intros Hlen Hok Hc Hi c0 X.
  destruct (payload_shape enc Hlen Hok) as [Hplen Hpok].
  unfold G1_DecodeCompressed.
  rewrite Hlen. change (Z.of_nat 33 =? G1CompressedSize) with true. cbn [negb].
  apply Z.eqb_neq in Hc. rewrite Hc. rewrite Hi. cbn [Z.eqb negb].
  assert (Hx : cp_x (match G1_p e with
                     | None => mkCurvePoint gfP_zero gfP_zero gfP_zero gfP_zero
                     | Some _ => mkCurvePoint gfP_zero gfP_zero (newGFp 1) (newGFp 1)
                     end) = gfP_zero) by (destruct (G1_p e); reflexivity).
  rewrite Hx. rewrite (gfP_Unmarshal_limbs gfP_zero _ Hplen Hpok).
  rewrite limbwise_add_zero_l by apply of_Z_limbs_ok.
  cbn [bind]. fold X. unfold c0, decode_start.
  destruct (modulus_check [3; 2; 1; 0] X); destruct (G1_p e); reflexivity.
Qed.

(** C6, amended.  For every encoding of 33 bytes with the COMPRESSED
    flag set and the INFINITY flag clear whose 32 coordinate bytes spell
    an integer that is at least [p], [DecodeCompressed] returns a
    coordinate error (the coordinate exceeds, or equals, the modulus)
    and no point. *)
Theorem G1_DecodeCompressed_out_of_range (e : G1) (enc : list Z) :
  length enc = 33%nat -> bytes_ok enc ->
  first_and enc serializationCompressed <> 0 ->
  first_and enc serializationInfinity = 0 ->
  p <= be_value (skipn 1 enc) ->
  exists e' err,
    G1_DecodeCompressed e enc = Done (e', Some err) /\
    err = (if be_value (skipn 1 enc) >? p then ErrExceedsModulus else ErrEqualsModulus) /\
    coordinate_error (Some err) = true.
Proof.
  intros Hlen Hok Hc Hi Hge.
  destruct (payload_shape enc Hlen Hok) as [Hplen Hpok].
  rewrite (G1_DecodeCompressed_coordinate e enc Hlen Hok Hc Hi).
  rewrite modulus_check_spec by apply of_Z_limbs_ok.
  rewrite (to_Z_parsed _ Hplen Hpok).
  destruct (Z.ltb_spec (be_value (skipn 1 enc)) p) as [Hlt|_]; [lia|].
  destruct (be_value (skipn 1 enc) >? p); do 2 eexists; repeat split.
Qed.

Lemma G1_DecodeCompressed_out_of_range_witness :
  exists e',
    G1_DecodeCompressed (mkG1 None) (0x80 :: repeat 0xFF 32)
    = Done (e', Some ErrExceedsModulus).
Proof.
  destruct (G1_DecodeCompressed_out_of_range (mkG1 None) (0x80 :: repeat 0xFF 32))
    as (e' & err & Hdec & Herr & _).
  - reflexivity.
  - repeat (apply Forall_cons; [lia|]). apply Forall_nil.
  - vm_compute. discriminate.
  - reflexivity.
  - vm_compute. discriminate.
  - exists e'. rewrite Hdec, Herr. reflexivity.
Defined.

(** C6 as stated fails: with the INFINITY flag set the flag checks come
    first and the error is another one. *)
Lemma G1_DecodeCompressed_infinity_flag_first :
  ~ (forall (e : G1) (enc : list Z),
        length enc = 33%nat -> bytes_ok enc ->
        first_and enc serializationCompressed <> 0 ->
        p <= be_value (skipn 1 enc) ->
        exists e' err,
          G1_DecodeCompressed e enc = Done (e', err) /\
          coordinate_error err = true).
Proof.
  intros H.
  destruct (H (mkG1 None) (0xC0 :: repeat 0xFF 32)) as (e' & err & Hdec & Herr).
  - reflexivity.
  - repeat (apply Forall_cons; [lia|]). apply Forall_nil.
  - vm_compute. discriminate.
  - vm_compute. discriminate.
  - vm_compute in Hdec. injection Hdec as _ <-. discriminate Herr.
Qed.


(** ** Square roots modulo [p] *)

Lemma pow_square_mod y H : 0 <= H -> (y * y) ^ H mod p = y ^ (2 * H) mod p.
Proof.
  intros HH. rewrite <- Z.pow_2_r, <- Z.pow_mul_r by lia. reflexivity.
Qed.

(** Euler's criterion, with the exponent [(p - 1) / 2] kept abstract. *)
Lemma non_residue_criterion v H :
  0 < H -> 2 * H = p - 1 -> v ^ H mod p = p - 1 ->
  forall y, (y * y) mod p <> v mod p.
Proof.
  intros HH H2 Hv y Hy. pose proof p_bounds as Hp.
  assert (Hpow : (y * y) ^ H mod p = v ^ H mod p).
  { rewrite <- (Z.mod_pow_l (y * y)), Hy, Z.mod_pow_l. reflexivity. }
  rewrite pow_square_mod in Hpow by lia.
  destruct (Z.eq_dec (y mod p) 0) as [Hy0|Hy0].
  - rewrite <- (Z.mod_pow_l y), Hy0, Z.pow_0_l, Z.mod_0_l in Hpow by lia. lia.
  - rewrite H2 in Hpow. rewrite (fermat_little p y p_prime Hy0) in Hpow. lia.
Qed.

Lemma sqrt_candidate_squares v y E H :
  0 < E -> 0 < H -> 2 * E = 1 + H -> 2 * H = p - 1 ->
  (y * y) mod p = v mod p ->
  (((v mod p) ^ E mod p) * ((v mod p) ^ E mod p)) mod p = v mod p.
Proof.
  intros HE HH HEH H2 Hy. pose proof p_bounds as Hp.
  rewrite <- Z.mul_mod, <- Z.pow_add_r by lia.
  replace (E + E) with (1 + H) by lia.
  rewrite Z.pow_add_r, Z.pow_1_r by lia.
  rewrite <- Z.mul_mod_idemp_r by lia.
  rewrite <- Hy at 2. rewrite Z.mod_pow_l, pow_square_mod by lia.
  destruct (Z.eq_dec (y mod p) 0) as [Hy0|Hy0].
  - assert (Hv0 : v mod p = 0).
    { rewrite <- Hy, <- Z.mul_mod_idemp_l, Hy0 by lia. reflexivity. }
    rewrite Hv0. rewrite Z.mul_0_l. reflexivity.
  - rewrite H2, (fermat_little p y p_prime Hy0), Z.mul_1_r. apply Z.mod_mod. lia.
Qed.

Lemma euler_non_residue v :
  Zpow_mod v ((p - 1) / 2) p = p - 1 ->
  forall y, (y * y) mod p <> v mod p.
Proof.
  intros Hv. apply (non_residue_criterion v ((p - 1) / 2)).
  - reflexivity.
  - reflexivity.
  - rewrite <- Zpow_mod_correct by (vm_compute; discriminate). exact Hv.
Qed.

Lemma big_ModSqrt_sound v c :
  big_ModSqrt v p = Some c -> (c * c) mod p = v mod p /\ 0 <= c < p.
Proof.
  unfold big_ModSqrt. cbv zeta. pose proof p_bounds.
  assert (Hrange : 0 <= Zpow_mod (v mod p) ((p + 1) / 4) p < p).
  { rewrite Zpow_mod_correct by lia. apply Z.mod_pos_bound. lia. }
  revert Hrange. generalize (Zpow_mod (v mod p) ((p + 1) / 4) p).
  intros cand Hrange.
  destruct (Z.eqb_spec ((cand * cand) mod p) (v mod p)) as [Heq|];
    [|discriminate].
  intros Hc. injection Hc as <-. split; assumption.
Qed.

Lemma big_ModSqrt_none v :
  (forall y, (y * y) mod p <> v mod p) -> big_ModSqrt v p = None.
Proof.
  intros Hno. destruct (big_ModSqrt v p) as [c|] eqn:Hc; [|reflexivity].
  apply big_ModSqrt_sound in Hc. destruct (Hno c). apply Hc.
Qed.

Lemma big_ModSqrt_complete v y :
  (y * y) mod p = v mod p -> exists c, big_ModSqrt v p = Some c.
Proof.
  intros Hy. unfold big_ModSqrt. cbv zeta. pose proof p_bounds as Hp.
  rewrite Zpow_mod_correct by lia.
  rewrite (sqrt_candidate_squares v y ((p + 1) / 4) ((p - 1) / 2));
    [|reflexivity|reflexivity|reflexivity|reflexivity|exact Hy].
  rewrite Z.eqb_refl. eexists. reflexivity.
Qed.

(** ** Recovering [y] *)

Lemma curveB_value : eqm p (to_Z curveB) (3 * R).
Proof. reflexivity. Qed.

Lemma to_Z_montEncode X : eqm p (to_Z (montEncode X)) (to_Z X * R).
Proof.
  unfold montEncode, eqm. rewrite to_Z_gfpMul, to_Z_r2, Z.mod_mod by (vm_compute; discriminate).
  eqm_goal. rewrite Zmod_eqm.
  transitivity (to_Z X * R * (R * Rinv)); [eqm_ring|].
  rewrite R_Rinv_eqm. eqm_ring.
Qed.

Lemma to_Z_montDecode X : eqm p (to_Z (montDecode X)) (to_Z X * Rinv).
Proof.
  unfold montDecode, eqm. rewrite to_Z_gfpMul, Z.mod_mod by (vm_compute; discriminate).
  change (to_Z gfP_lit1) with 1. eqm_goal. eqm_ring.
Qed.

Lemma montDecode_montEncode X : gfP_valid X -> montDecode (montEncode X) = X.
Proof.
  intros HX. unfold montDecode at 1. unfold gfpMul at 1.
  apply of_Z_mod_id; [exact HX|].
  change (to_Z gfP_lit1) with 1. eqm_goal. rewrite to_Z_montEncode.
  transitivity (to_Z X * (R * Rinv)); [eqm_ring|].
  rewrite R_Rinv_eqm. eqm_ring.
Qed.

Lemma curve_rhs_value X :
  let xm := montEncode X in
  to_Z (montDecode (gfpAdd (gfpMul (gfpMul xm xm) xm) curveB))
  = (to_Z X ^ 3 + 3) mod p.
Proof.
  intros xm. pose proof p_bounds as Hp.
  rewrite <- (Z.mod_small (to_Z (montDecode _)) p)
    by (pose proof (gfpMul_valid (gfpAdd (gfpMul (gfpMul xm xm) xm) curveB) gfP_lit1) as [Hl Hv];
        pose proof (to_Z_bounds _ Hl); unfold montDecode; lia).
  eqm_goal. rewrite to_Z_montDecode.
  rewrite <- (Zmod_eqm p (to_Z (gfpAdd _ _))), to_Z_gfpAdd, Z.mod_mod, Zmod_eqm by lia.
  rewrite <- (Zmod_eqm p (to_Z (gfpMul _ xm))), to_Z_gfpMul, Z.mod_mod, Zmod_eqm by lia.
  rewrite <- (Zmod_eqm p (to_Z (gfpMul xm xm))), to_Z_gfpMul, Z.mod_mod, Zmod_eqm by lia.
  unfold xm. rewrite !to_Z_montEncode, curveB_value.
  generalize (to_Z X). intros x.
  transitivity (x ^ 3 * ((R * Rinv) * (R * Rinv) * (R * Rinv)) + 3 * (R * Rinv));
    [eqm_ring|].
  rewrite R_Rinv_eqm. eqm_ring.
Qed.

(** ** gfP: from a big integer *)

Lemma be_value_app l b : be_value (l ++ [b]) = be_value l * 256 + b.
Proof. unfold be_value. rewrite fold_left_app. reflexivity. Qed.

Lemma bytes_le_spec fuel : forall z,
  0 <= z < 2 ^ Z.of_nat fuel ->
  bytes_ok (bytes_le fuel z) /\
  be_value (rev (bytes_le fuel z)) = z /\
  (z = 0 -> bytes_le fuel z = []) /\
  (0 < z ->
   256 ^ (Z.of_nat (length (bytes_le fuel z)) - 1) <= z
   < 256 ^ Z.of_nat (length (bytes_le fuel z))).
Proof.
  induction fuel as [|fuel IH]; intros z Hz.
  - change (2 ^ Z.of_nat 0) with 1 in Hz. assert (z = 0) by lia. subst z.
    cbn [bytes_le]. repeat split; try constructor; try lia.
  - cbn [bytes_le]. destruct (Z.eqb_spec z 0) as [->|Hnz].
    + repeat split; try constructor; try lia.
    + rewrite Nat2Z.inj_succ, Z.pow_succ_r in Hz by lia.
      assert (Hq : 0 <= z / 256 < 2 ^ Z.of_nat fuel).
      { split; [apply Z.div_pos; lia|].
        apply Z.div_lt_upper_bound; [lia|].
        assert (0 < 2 ^ Z.of_nat fuel) by (apply Z.pow_pos_nonneg; lia). lia. }
      destruct (IH (z / 256) Hq) as (Hok & Hval & Hzero & Hlen).
      pose proof (Z.mod_pos_bound z 256 ltac:(lia)) as Hm.
      pose proof (Z.div_mod z 256 ltac:(lia)) as Hdm.
      repeat split.
      * constructor; [lia|exact Hok].
      * cbn [rev]. rewrite be_value_app, Hval. lia.
      * intros; lia.
      * cbn [length]. rewrite Nat2Z.inj_succ.
        replace (Z.succ (Z.of_nat (length (bytes_le fuel (z / 256)))) - 1)
          with (Z.of_nat (length (bytes_le fuel (z / 256)))) by lia.
        destruct (Z.eq_dec (z / 256) 0) as [Hq0|Hq0].
        -- rewrite (Hzero Hq0). cbn [length]. change (256 ^ Z.of_nat 0) with 1. lia.
        -- destruct Hlen as [Hlo _]; [lia|].
           assert (Hpos : 0 < Z.of_nat (length (bytes_le fuel (z / 256)))).
           { destruct (bytes_le fuel (z / 256)) eqn:E; [|cbn [length]; lia].
             cbn in Hval. lia. }
           replace (Z.of_nat (length (bytes_le fuel (z / 256))))
             with (Z.succ (Z.of_nat (length (bytes_le fuel (z / 256))) - 1)) at 1 by lia.
           rewrite Z.pow_succ_r by lia. lia.
      * cbn [length]. rewrite Nat2Z.inj_succ, Z.pow_succ_r by lia.
        destruct (Z.eq_dec (z / 256) 0) as [Hq0|Hq0].
        -- rewrite (Hzero Hq0). cbn [length]. change (256 ^ Z.of_nat 0) with 1. lia.
        -- destruct Hlen as [_ Hhi]; lia.
Qed.

Lemma bytes_ok_rev l : bytes_ok l -> bytes_ok (rev l).
Proof. unfold bytes_ok. intros H. apply Forall_rev. exact H. Qed.

Lemma big_Bytes_spec v :
  0 <= v ->
  bytes_ok (big_Bytes v) /\ be_value (big_Bytes v) = v /\
  (v = 0 -> big_Bytes v = []) /\
  (0 < v ->
   256 ^ (Z.of_nat (length (big_Bytes v)) - 1) <= v
   < 256 ^ Z.of_nat (length (big_Bytes v))).
Proof.
  intros Hv. unfold big_Bytes. rewrite Z.abs_eq by lia.
  assert (Hfuel : 0 <= v < 2 ^ Z.of_nat (S (Z.to_nat (Z.log2 v)))).
  { split; [lia|]. rewrite Nat2Z.inj_succ, Z2Nat.id by apply Z.log2_nonneg.
    destruct (Z.eq_dec v 0) as [->|]; [reflexivity|].
    apply Z.log2_spec. lia. }
  destruct (bytes_le_spec _ v Hfuel) as (Hok & Hval & Hzero & Hlen).
  rewrite length_rev. repeat split.
  - apply bytes_ok_rev. exact Hok.
  - exact Hval.
  - intros H0. rewrite (Hzero H0). reflexivity.
  - apply Hlen. assumption.
  - apply Hlen. assumption.
Qed.

Lemma big_Bytes_length_32 v :
  2 ^ 248 <= v < 2 ^ 256 -> length (big_Bytes v) = 32%nat.
Proof.
  intros Hv. destruct (big_Bytes_spec v ltac:(lia)) as (_ & _ & _ & Hlen).
  destruct Hlen as [Hlo Hhi]; [lia|].
  set (n := Z.of_nat (length (big_Bytes v))) in *.
  assert (Hn : 0 <= n) by (unfold n; lia).
  assert (H1 : n - 1 < 32).
  { apply (Z.pow_lt_mono_r_iff 256); [lia|lia|]. change (256 ^ 32) with (2 ^ 256). lia. }
  assert (H2 : 31 < n).
  { apply (Z.pow_lt_mono_r_iff 256); [lia|lia|]. change (256 ^ 31) with (2 ^ 248). lia. }
  unfold n in *. lia.
Qed.

Lemma big_Bytes_length_short v :
  0 <= v < 2 ^ 248 -> (length (big_Bytes v) < 32)%nat.
Proof.
  intros Hv. destruct (big_Bytes_spec v ltac:(lia)) as (_ & _ & Hzero & Hlen).
  destruct (Z.eq_dec v 0) as [H0|H0].
  - rewrite (Hzero H0). cbn. lia.
  - destruct Hlen as [Hlo Hhi]; [lia|].
    set (n := Z.of_nat (length (big_Bytes v))) in *.
    assert (Hn : 0 <= n) by (unfold n; lia).
    destruct (Z_lt_le_dec n 32) as [|Hge]; [unfold n in *; lia|exfalso].
    assert (256 ^ 31 <= 256 ^ (n - 1)) by (apply Z.pow_le_mono_r; lia).
    change (256 ^ 31) with (2 ^ 248) in *. lia.
Qed.

Lemma be_uint64_limb b0 b1 b2 b3 b4 b5 b6 b7 :
  be_uint64 [b0; b1; b2; b3; b4; b5; b6; b7] = be_limb b0 b1 b2 b3 b4 b5 b6 b7.
Proof. unfold be_uint64, be_limb; cbn [fold_left]. ring. Qed.

Lemma newGFpFromBigInt_full v :
  length (big_Bytes v) = 32%nat -> bytes_ok (big_Bytes v) ->
  newGFpFromBigInt v = Done (of_Z (be_value (big_Bytes v))).
Proof.
  unfold newGFpFromBigInt. cbv zeta. generalize (big_Bytes v). intros L Hlen Hok.
  list_of_length Hlen.
  rewrite (be_value_limbs _ _ _ _ _ _ _ _ _ _ _ _ _ _ _ _
                          _ _ _ _ _ _ _ _ _ _ _ _ _ _ _ _ Hok).
  rewrite <- !be_uint64_limb. reflexivity.
Qed.

Lemma newGFpFromBigInt_short v :
  (length (big_Bytes v) < 32)%nat -> newGFpFromBigInt v = Panic.
Proof.
  unfold newGFpFromBigInt. cbv zeta. generalize (big_Bytes v). intros L Hlen.
  do 32 (destruct L as [|? L]; [reflexivity|]).
  cbn [length] in Hlen. lia.
Qed.

(** [newGFpFromBigInt] on a value below [2^256]: the limbs of the
    value when it has 32 bytes, a panic on the slice expression when it
    has fewer. *)
Theorem newGFpFromBigInt_spec v :
  0 <= v < 2 ^ 256 ->
  newGFpFromBigInt v = if 2 ^ 248 <=? v then Done (of_Z v) else Panic.
Proof.
  intros Hv. destruct (Z.leb_spec (2 ^ 248) v) as [Hbig|Hsmall].
  - destruct (big_Bytes_spec v ltac:(lia)) as (Hok & Hval & _).
    rewrite newGFpFromBigInt_full, Hval;
      [reflexivity|apply big_Bytes_length_32; lia|exact Hok].
  - apply newGFpFromBigInt_short. apply big_Bytes_length_short. lia.
Qed.

(** ** G1: recovering [y] *)

Lemma getYFromMontEncodedX_spec X :
  getYFromMontEncodedX (montEncode X) =
    match big_ModSqrt ((to_Z X ^ 3 + 3) mod p) p with
    | None => Done (inr ErrNotASquare)
    | Some c => y <- newGFpFromBigInt c ;; Done (inl (montEncode y))
    end.
Proof.
  unfold getYFromMontEncodedX, gFpToBigInt. rewrite curve_rhs_value. reflexivity.
Qed.

Lemma decoded_square y c :
  eqm p (to_Z y) (c * R) \/ eqm p (to_Z y) (- c * R) ->
  (to_Z (montDecode y) * to_Z (montDecode y)) mod p = (c * c) mod p.
Proof.
  intros H. eqm_goal. rewrite !to_Z_montDecode.
  destruct H as [H|H]; rewrite H.
  - transitivity (c * c * ((R * Rinv) * (R * Rinv))); [eqm_ring|].
    rewrite R_Rinv_eqm. eqm_ring.
  - transitivity (c * c * ((R * Rinv) * (R * Rinv))); [eqm_ring|].
    rewrite R_Rinv_eqm. eqm_ring.
Qed.

Lemma to_Z_gfpNeg_eqm y : eqm p (to_Z (gfpNeg y)) (- to_Z y).
Proof. unfold eqm. rewrite to_Z_gfpNeg. apply Z.mod_mod. vm_compute; discriminate. Qed.

Lemma fix_sign_cases c enc :
  exists e',
    fix_sign (mkG1 (Some c)) enc = Done e' /\
    (e' = mkG1 (Some c) \/ e' = mkG1 (Some (curvePoint_Neg c))).
Proof.
  unfold fix_sign, G1_IsHigherY, G1_Neg; cbn [G1_p bind].
  destruct (higher_loop _ _ _); cbn [negb];
    destruct (first_and enc serializationBigY =? 0); cbn [negb];
    eexists; split; try reflexivity; auto.
Qed.

(** C2, amended.  For every encoding of 33 bytes with the COMPRESSED
    flag set and the INFINITY flag clear whose coordinate [x] is below
    [p] and such that [x^3 + 3] is not a square modulo [p],
    [DecodeCompressed] fails
    with the not-a-square error; and whenever it accepts a point, the
    [y] it stored squares to [x^3 + 3] modulo [p]. *)
Theorem G1_DecodeCompressed_not_a_square (e : G1) (enc : list Z) :
  length enc = 33%nat -> bytes_ok enc ->
  first_and enc serializationCompressed <> 0 ->
  first_and enc serializationInfinity = 0 ->
  be_value (skipn 1 enc) < p ->
  let x := be_value (skipn 1 enc) in
  ((forall y, (y * y) mod p <> (x ^ 3 + 3) mod p) ->
   exists e', G1_DecodeCompressed e enc = Done (e', Some ErrNotASquare)) /\
  (forall e', G1_DecodeCompressed e enc = Done (e', None) ->
   exists c, G1_p e' = Some c /\
     to_Z (montDecode (cp_x c)) = x /\
     (to_Z (montDecode (cp_y c)) * to_Z (montDecode (cp_y c))) mod p
       = (x ^ 3 + 3) mod p).
Proof.
  intros Hlen Hok Hc Hi Hlt x.
  destruct (payload_shape enc Hlen Hok) as [Hplen Hpok].
  pose proof (be_value_32_bounds _ Hplen Hpok) as Hb. fold x in Hb, Hlt.
  pose proof p_bounds as Hp.
  rewrite (G1_DecodeCompressed_coordinate e enc Hlen Hok Hc Hi).
  rewrite modulus_check_spec by apply of_Z_limbs_ok.
  rewrite (to_Z_parsed _ Hplen Hpok). fold x.
  destruct (Z.ltb_spec x p) as [_|]; [|lia].
  rewrite getYFromMontEncodedX_spec.
  rewrite (to_Z_of_Z x) by lia.
  assert (HX : gfP_valid (of_Z x)).
  { split; [apply of_Z_limbs_ok|]. rewrite to_Z_of_Z by lia. exact Hlt. }
  split.
  - intros Hno. rewrite big_ModSqrt_none.
    + cbn [bind]. eexists. reflexivity.
    + intros y. rewrite Z.mod_mod by lia. apply Hno.
  - intros e'. destruct (big_ModSqrt ((x ^ 3 + 3) mod p) p) as [c0|] eqn:Hsq;
      [|cbn [bind]; discriminate].
    apply big_ModSqrt_sound in Hsq. destruct Hsq as [Hsq Hc0].
    rewrite Z.mod_mod in Hsq by lia.
    rewrite newGFpFromBigInt_spec by lia.
    destruct (2 ^ 248 <=? c0); [|cbn [bind]; discriminate].
    cbn [bind].
    match goal with
    | |- context [fix_sign (mkG1 (Some ?pt)) enc] =>
        destruct (fix_sign_cases pt enc) as (e1 & -> & He1)
    end.
    cbn [bind]. intros [= <-].
    assert (Hy : eqm p (to_Z (montEncode (of_Z c0))) (c0 * R)).
    { rewrite to_Z_montEncode. rewrite to_Z_of_Z by lia. reflexivity. }
    destruct He1 as [->| ->]; eexists; (split; [reflexivity|]);
      cbn [cp_x cp_y curvePoint_Neg]; rewrite montDecode_montEncode by exact HX;
      (split; [apply to_Z_of_Z; lia|]); rewrite <- Hsq; apply decoded_square.
    + left. exact Hy.
    + right. rewrite to_Z_gfpNeg_eqm, Hy. eqm_ring.
Qed.

Lemma G1_DecodeCompressed_not_a_square_witness :
  exists e',
    G1_DecodeCompressed (mkG1 None) (0x80 :: repeat 0 31 ++ [4])
    = Done (e', Some ErrNotASquare).
Proof.
  destruct (G1_DecodeCompressed_not_a_square (mkG1 None) (0x80 :: repeat 0 31 ++ [4]))
    as [Hfail _].
  - reflexivity.
  - repeat (apply Forall_cons; [lia|]). apply Forall_nil.
  - vm_compute. discriminate.
  - reflexivity.
  - reflexivity.
  - apply Hfail.
    apply (euler_non_residue (be_value (skipn 1 (0x80 :: repeat 0 31 ++ [4])) ^ 3 + 3)).
    vm_compute. reflexivity.
Defined.

(** C2 as stated fails: a non-residue [x^3 + 3] does not give the
    not-a-square error when the INFINITY flag is set (the flag checks
    come first), nor when the coordinate is not below [p] (the range
    check comes first; here the coordinate is [p + 4]). *)
Lemma G1_DecodeCompressed_flags_and_range_first :
  ~ (forall (e : G1) (enc : list Z),
        length enc = 33%nat -> bytes_ok enc ->
        first_and enc serializationCompressed <> 0 ->
        (forall y, (y * y) mod p <> (be_value (skipn 1 enc) ^ 3 + 3) mod p) ->
        exists e', G1_DecodeCompressed e enc = Done (e', Some ErrNotASquare)) /\
  ~ (forall (e : G1) (enc : list Z),
        length enc = 33%nat -> bytes_ok enc ->
        first_and enc serializationCompressed <> 0 ->
        first_and enc serializationInfinity = 0 ->
        (forall y, (y * y) mod p <> (be_value (skipn 1 enc) ^ 3 + 3) mod p) ->
        exists e', G1_DecodeCompressed e enc = Done (e', Some ErrNotASquare)).
Proof.
  split.
  - intros H.
    destruct (H (mkG1 None) (0xC0 :: repeat 0 31 ++ [4])) as (e' & Hdec).
    + reflexivity.
    + repeat (apply Forall_cons; [lia|]). apply Forall_nil.
    + vm_compute. discriminate.
    + apply euler_non_residue. vm_compute. reflexivity.
    + vm_compute in Hdec. discriminate Hdec.
  - intros H.
    destruct (H (mkG1 None)
                (0x80 :: [0x30; 0x64; 0x4e; 0x72; 0xe1; 0x31; 0xa0; 0x29;
                          0xb8; 0x50; 0x45; 0xb6; 0x81; 0x81; 0x58; 0x5d;
                          0x97; 0x81; 0x6a; 0x91; 0x68; 0x71; 0xca; 0x8d;
                          0x3c; 0x20; 0x8c; 0x16; 0xd8; 0x7c; 0xfd; 0x4b]))
      as (e' & Hdec).
    + reflexivity.
    + repeat (apply Forall_cons; [lia|]). apply Forall_nil.
    + vm_compute. discriminate.
    + reflexivity.
    + apply euler_non_residue. vm_compute. reflexivity.
    + vm_compute in Hdec. discriminate Hdec.
Qed.

(** ** G1: the compressed round trip *)

Lemma land_nonzero_nonzero b m : Z.land b m <> 0 -> b <> 0.
Proof. intros H ->. apply H. apply Z.land_0_l. Qed.

(** With the INFINITY flag set every input is refused: [bin] is the
    encoding itself, flags included, so the scan for a nonzero byte
    stops at [bin[0]]. *)
Lemma G1_DecodeCompressed_infinity_flag e enc :
  first_and enc serializationInfinity <> 0 ->
  exists e' err, G1_DecodeCompressed e enc = Done (e', Some err) /\
    (length enc = 33%nat -> first_and enc serializationCompressed <> 0 ->
     first_and enc serializationBigY = 0 -> err = ErrInvalidInfinity).
Proof.
  intros Hi. unfold G1_DecodeCompressed.
  destruct (Z.of_nat (length enc) =? G1CompressedSize) eqn:Hlen; cbn [negb].
  2:{ do 2 eexists. split; [reflexivity|]. intros H. rewrite H in Hlen. discriminate. }
  destruct (Z.eqb_spec (first_and enc serializationCompressed) 0) as [Hc|Hc].
  { do 2 eexists. split; [reflexivity|]. intros _ H. contradiction. }
  apply Z.eqb_neq in Hi. rewrite Hi. cbn [negb].
  destruct (Z.eqb_spec (first_and enc serializationBigY) 0) as [Hy|Hy]; cbn [negb].
  2:{ do 2 eexists. split; [reflexivity|]. intros _ _ H. contradiction. }
  assert (Hex : existsb (fun b => negb (b =? 0)) enc = true).
  { apply Z.eqb_neq in Hi. unfold first_and in Hi.
    destruct enc as [|b rest]; [cbn in Hi; contradiction|].
    cbn [nth] in Hi. apply land_nonzero_nonzero in Hi.
    cbn [existsb]. apply Z.eqb_neq in Hi. rewrite Hi. reflexivity. }
  rewrite Hex. do 2 eexists. split; [reflexivity|]. reflexivity.
Qed.

(** C1 fails on the code at the point at infinity.  [EncodeCompressed]
    produces [0xC0, 0, ..., 0]; [DecodeCompressed] copies the encoding to
    [bin] without masking the flag bits, so its scan for a nonzero byte
    stops at [bin[0]] and it returns "invalid infinity encoding"
    instead of the point at infinity. *)
Theorem G1_infinity_does_not_round_trip (e e0 : G1) (c : curvePoint) :
  G1_p e = Some c -> IsInfinity (MakeAffine c) = true ->
  exists e1 encoding e',
    G1_EncodeCompressed e = Done (e1, encoding) /\
    G1_DecodeCompressed e0 encoding = Done (e', Some ErrInvalidInfinity).
Proof.
  intros Hp Hinf. unfold G1_EncodeCompressed. rewrite Hp, Hinf.
  destruct (G1_DecodeCompressed_infinity_flag e0 (0xC0 :: repeat 0 32))
    as (e' & err & Hdec & Herr).
  { vm_compute. discriminate. }
  rewrite Herr in Hdec; [|reflexivity|vm_compute; discriminate|reflexivity].
  exists (mkG1 (Some (MakeAffine c))), (0xC0 :: repeat 0 32), e'.
  split; [reflexivity|exact Hdec].
Qed.

Lemma G1_infinity_does_not_round_trip_witness :
  exists e1 encoding e',
    G1_EncodeCompressed G1_infinity = Done (e1, encoding) /\
    G1_DecodeCompressed (mkG1 None) encoding = Done (e', Some ErrInvalidInfinity).
Proof.
  apply (G1_infinity_does_not_round_trip G1_infinity (mkG1 None)
           (SetInfinity (mkCurvePoint gfP_zero gfP_zero gfP_zero gfP_zero))).
  - reflexivity.
  - vm_compute. reflexivity.
Defined.

(** The generator [(1, 2)] does not round-trip either: the root that
    [ModSqrt] returns is 2, [big.Int.Bytes] gives one byte for it, and
    [newGFpFromBigInt] panics on [inBytes[0:8]]. *)
Lemma G1_generator_decode_panics :
  exists e1 encoding,
    G1_EncodeCompressed G1_generator = Done (e1, encoding) /\
    G1_DecodeCompressed (mkG1 None) encoding = Panic.
Proof.
  exists (mkG1 (Some (mkCurvePoint (newGFp 1) (newGFp 2) (newGFp 1) (newGFp 1)))),
         (0xA0 :: repeat 0 31 ++ [1]).
  split; vm_compute; reflexivity.
Qed.

(** ** gfP: writing bytes *)

Lemma gfP_Marshal_long e out :
  (32 <= length out)%nat ->
  gfP_Marshal e out = Done (marshal_bytes e ++ skipn 32 out).
Proof.
  intros Hlen.
  do 32 (destruct out as [|? out]; [cbn [length] in Hlen; lia|]).
  reflexivity.
Qed.

Lemma gfP_Marshal_short e out :
  (length out < 32)%nat -> gfP_Marshal e out = Panic.
Proof.
  intros Hlen.
  do 32 (destruct out as [|? out]; [reflexivity|]).
  cbn [length] in Hlen. lia.
Qed.

Lemma limb_bytes l :
  0 <= l < 2 ^ 64 ->
  be_limb (byte (Z.shiftr l 56)) (byte (Z.shiftr l 48)) (byte (Z.shiftr l 40))
          (byte (Z.shiftr l 32)) (byte (Z.shiftr l 24)) (byte (Z.shiftr l 16))
          (byte (Z.shiftr l 8)) (byte (Z.shiftr l 0)) = l.
Proof.
  intros Hl. unfold be_limb, byte. rewrite !Z.shiftr_div_pow2 by lia.
  Z.div_mod_to_equations. lia.
Qed.

Lemma byte_ok z : 0 <= byte z < 256.
Proof. unfold byte. apply Z.mod_pos_bound. lia. Qed.

Lemma marshal_bytes_spec e :
  limbs_ok e ->
  length (marshal_bytes e) = 32%nat /\ bytes_ok (marshal_bytes e) /\
  of_Z (be_value (marshal_bytes e)) = e /\ be_value (marshal_bytes e) = to_Z e.
Proof.
  intros He.
  assert (Hok : bytes_ok (marshal_bytes e)).
  { repeat (apply Forall_cons; [apply byte_ok|]). apply Forall_nil. }
  assert (Hof : of_Z (be_value (marshal_bytes e)) = e).
  { change (marshal_bytes e) with
      [byte (Z.shiftr (l3 e) 56); byte (Z.shiftr (l3 e) 48); byte (Z.shiftr (l3 e) 40);
       byte (Z.shiftr (l3 e) 32); byte (Z.shiftr (l3 e) 24); byte (Z.shiftr (l3 e) 16);
       byte (Z.shiftr (l3 e) 8); byte (Z.shiftr (l3 e) 0);
       byte (Z.shiftr (l2 e) 56); byte (Z.shiftr (l2 e) 48); byte (Z.shiftr (l2 e) 40);
       byte (Z.shiftr (l2 e) 32); byte (Z.shiftr (l2 e) 24); byte (Z.shiftr (l2 e) 16);
       byte (Z.shiftr (l2 e) 8); byte (Z.shiftr (l2 e) 0);
       byte (Z.shiftr (l1 e) 56); byte (Z.shiftr (l1 e) 48); byte (Z.shiftr (l1 e) 40);
       byte (Z.shiftr (l1 e) 32); byte (Z.shiftr (l1 e) 24); byte (Z.shiftr (l1 e) 16);
       byte (Z.shiftr (l1 e) 8); byte (Z.shiftr (l1 e) 0);
       byte (Z.shiftr (l0 e) 56); byte (Z.shiftr (l0 e) 48); byte (Z.shiftr (l0 e) 40);
       byte (Z.shiftr (l0 e) 32); byte (Z.shiftr (l0 e) 24); byte (Z.shiftr (l0 e) 16);
       byte (Z.shiftr (l0 e) 8); byte (Z.shiftr (l0 e) 0)] in *.
    rewrite (be_value_limbs _ _ _ _ _ _ _ _ _ _ _ _ _ _ _ _
                            _ _ _ _ _ _ _ _ _ _ _ _ _ _ _ _ Hok).
    destruct e as [e0 e1 e2 e3]. destruct He as (H0 & H1 & H2 & H3).
    cbn [l0 l1 l2 l3] in *. rewrite !limb_bytes by assumption. reflexivity. }
  repeat split.
  - exact Hok.
  - exact Hof.
  - rewrite <- Hof at 2. symmetry. apply to_Z_of_Z.
    apply be_value_32_bounds; [reflexivity|exact Hok].
Qed.

(** X1.  [Marshal] writes the limbs, most significant first and each
    most significant byte first, into the first 32 bytes of [out] and
    leaves the rest of [out] as it was; the 32 bytes spell the value of
    the element.  On a slice of fewer than 32 bytes it panics. *)
Theorem gfP_Marshal_spec (e : gfP) (out : list Z) :
  limbs_ok e ->
  gfP_Marshal e out =
    (if (32 <=? length out)%nat
     then Done (marshal_bytes e ++ skipn 32 out) else Panic) /\
  length (marshal_bytes e) = 32%nat /\ bytes_ok (marshal_bytes e) /\
  be_value (marshal_bytes e) = to_Z e.
Proof.
  intros He. destruct (marshal_bytes_spec e He) as (Hlen & Hok & _ & Hval).
  repeat split; try assumption.
  destruct (Nat.leb_spec 32 (length out)).
  - apply gfP_Marshal_long. assumption.
  - apply gfP_Marshal_short. assumption.
Qed.

Lemma gfP_Marshal_spec_witness :
  gfP_Marshal gfP_lit1 (repeat 7 33) = Done (repeat 0 31 ++ [1; 7]).
Proof.
  destruct (gfP_Marshal_spec gfP_lit1 (repeat 7 33)) as [H _].
  - repeat split; cbn [l0 l1 l2 l3 gfP_lit1]; lia.
  - rewrite H. reflexivity.
Defined.

(** X2.  On a receiver that is zero, [Unmarshal] of 32 bytes leaves the
    big-endian value of the bytes in the receiver, and its result is
    nil when that value is below [p], "coordinate exceeds modulus" when
    it is above and "coordinate equals modulus" when it is [p]. *)
Theorem gfP_Unmarshal_zero_receiver (inp : list Z) :
  length inp = 32%nat -> bytes_ok inp ->
  let v := be_value inp in
  gfP_Unmarshal gfP_zero inp =
    Done (of_Z v,
          if v <? p then None
          else if v >? p then Some ErrExceedsModulus
          else Some ErrEqualsModulus) /\
  to_Z (of_Z v) = v.
Proof.
  intros Hlen Hok v. split.
  - rewrite (gfP_Unmarshal_limbs _ _ Hlen Hok).
    rewrite limbwise_add_zero_l by apply of_Z_limbs_ok.
    rewrite modulus_check_spec by apply of_Z_limbs_ok.
    rewrite (to_Z_parsed _ Hlen Hok). reflexivity.
  - apply to_Z_parsed; assumption.
Qed.

Lemma gfP_Unmarshal_zero_receiver_witness :
  gfP_Unmarshal gfP_zero (marshal_bytes p2) = Done (p2, Some ErrEqualsModulus).
Proof.
  destruct (gfP_Unmarshal_zero_receiver (marshal_bytes p2)) as [H _].
  - reflexivity.
  - repeat (apply Forall_cons; [vm_compute; split; [discriminate|reflexivity]|]).
    apply Forall_nil.
  - rewrite H. reflexivity.
Defined.

(** X3.  [Unmarshal] panics on an input of fewer than 32 bytes, whatever
    the receiver. *)
Theorem gfP_Unmarshal_short_input (e : gfP) (inp : list Z) :
  (length inp < 32)%nat -> gfP_Unmarshal e inp = Panic.
Proof.
  intros Hlen. unfold gfP_Unmarshal.
  do 32 (destruct inp as [|? inp]; [reflexivity|]).
  cbn [length] in Hlen. lia.
Qed.

Lemma gfP_Unmarshal_short_input_witness :
  gfP_Unmarshal gfP_zero (repeat 0 31) = Panic.
Proof. apply gfP_Unmarshal_short_input. cbn [length repeat]. lia. Defined.

(** X4.  [Unmarshal] into a zero receiver reads back what [Marshal]
    wrote: the element itself, limb for limb, with no error exactly
    when the element is below [p]. *)
Theorem gfP_Marshal_Unmarshal_round_trip (e : gfP) (out : list Z) :
  limbs_ok e -> (32 <= length out)%nat ->
  exists out',
    gfP_Marshal e out = Done out' /\
    length out' = length out /\
    gfP_Unmarshal gfP_zero (firstn 32 out') =
      Done (e, if to_Z e <? p then None
               else if to_Z e >? p then Some ErrExceedsModulus
               else Some ErrEqualsModulus).
Proof.
  intros He Hlen.
  destruct (marshal_bytes_spec e He) as (Hl & Hok & Hof & Hval).
  exists (marshal_bytes e ++ skipn 32 out). split; [|split].
  - apply gfP_Marshal_long. exact Hlen.
  - rewrite length_app, length_skipn, Hl. lia.
  - rewrite firstn_app, Hl. change (32 - 32)%nat with 0%nat.
    rewrite firstn_O, app_nil_r.
    rewrite firstn_all2 by (rewrite Hl; lia).
    rewrite (gfP_Unmarshal_limbs _ _ Hl Hok).
    rewrite limbwise_add_zero_l by apply of_Z_limbs_ok.
    rewrite Hof. rewrite modulus_check_spec by exact He. reflexivity.
Qed.

Lemma gfP_Marshal_Unmarshal_round_trip_witness :
  exists out',
    gfP_Marshal (newGFp 1) (repeat 0 40) = Done out' /\
    gfP_Unmarshal gfP_zero (firstn 32 out') = Done (newGFp 1, None).
Proof.
  destruct (gfP_Marshal_Unmarshal_round_trip (newGFp 1) (repeat 0 40))
    as (out' & Hm & _ & Hu).
  - apply of_Z_limbs_ok.
  - cbn [length repeat]. lia.
  - exists out'. split; [exact Hm|]. rewrite Hu. reflexivity.
Defined.

(** ** gfP: construction and conversion *)

Lemma gfpMul_value a b v :
  eqm p (to_Z a * to_Z b * Rinv) v -> gfpMul a b = of_Z (v mod p).
Proof. intros H. unfold gfpMul. rewrite H. reflexivity. Qed.

Lemma montEncode_value X : to_Z (montEncode X) = (to_Z X * R) mod p.
Proof.
  pose proof p_bounds as Hp.
  destruct (gfpMul_valid X r2) as [Hl Hv]. pose proof (to_Z_bounds _ Hl) as Hb.
  fold (montEncode X) in Hv, Hb.
  rewrite <- (Z.mod_small (to_Z (montEncode X)) p) by lia.
  apply to_Z_montEncode.
Qed.

Lemma to_Z_newGFp x :
  - 2 ^ 63 <= x < 2 ^ 63 -> to_Z (newGFp x) = (x * R) mod p.
Proof.
  intros Hx. unfold newGFp. cbv zeta. rewrite montEncode_value.
  destruct (Z.leb_spec 0 x) as [Hpos|Hneg].
  - unfold to_Z, wrap64; cbn [l0 l1 l2 l3]. rewrite (Z.mod_small x) by lia.
    f_equal. ring.
  - eqm_goal. rewrite to_Z_gfpNeg_eqm.
    unfold to_Z, wrap64; cbn [l0 l1 l2 l3]. rewrite (Z.mod_small (- x)) by lia.
    eqm_ring.
Qed.

(** X5.  For every [int64] [x], negative ones included, [newGFp(x)] is
    the field element [x * R mod p], the Montgomery form of [x]. *)
Theorem newGFp_value (x : Z) :
  - 2 ^ 63 <= x < 2 ^ 63 ->
  gfP_valid (newGFp x) /\ to_Z (newGFp x) = (x * R) mod p.
Proof.
  intros Hx. split; [apply gfpMul_valid|apply to_Z_newGFp; exact Hx].
Qed.

Lemma newGFp_value_witness :
  to_Z (newGFp (-1)) = (- R) mod p.
Proof.
  destruct (newGFp_value (-1)) as [_ H]; [lia|].
  rewrite H. reflexivity.
Defined.

(** X6.  [newGFpFromBigInt] undoes [gFpToBigInt] on the elements whose
    most significant byte is not zero; on every other element the
    big integer has fewer than 32 bytes and [newGFpFromBigInt] panics
    on the slice expression. *)
Theorem newGFpFromBigInt_gFpToBigInt (e : gfP) :
  limbs_ok e ->
  newGFpFromBigInt (gFpToBigInt e) =
    if 2 ^ 248 <=? to_Z e then Done e else Panic.
Proof.
  intros He. pose proof (to_Z_bounds e He) as Hb. unfold gFpToBigInt.
  destruct (Z.leb_spec (2 ^ 248) (to_Z e)) as [Hbig|Hsmall].
  - destruct (big_Bytes_spec (to_Z e) ltac:(lia)) as (Hok & Hval & _).
    rewrite newGFpFromBigInt_full, Hval;
      [f_equal; apply of_Z_to_Z; exact He|apply big_Bytes_length_32; lia|exact Hok].
  - apply newGFpFromBigInt_short. apply big_Bytes_length_short. lia.
Qed.

Lemma newGFpFromBigInt_gFpToBigInt_witness :
  newGFpFromBigInt (gFpToBigInt p2) = Done p2 /\
  newGFpFromBigInt (gFpToBigInt gfP_lit1) = Panic.
Proof.
  split.
  - rewrite (newGFpFromBigInt_gFpToBigInt p2); [reflexivity|].
    repeat split; cbn [l0 l1 l2 l3 p2]; lia.
  - rewrite (newGFpFromBigInt_gFpToBigInt gfP_lit1); [reflexivity|].
    repeat split; cbn [l0 l1 l2 l3 gfP_lit1]; lia.
Defined.

Lemma montEncode_montDecode X : gfP_valid X -> montEncode (montDecode X) = X.
Proof.
  intros HX. unfold montEncode at 1. unfold gfpMul at 1.
  apply of_Z_mod_id; [exact HX|].
  rewrite to_Z_r2. eqm_goal. rewrite Zmod_eqm, to_Z_montDecode.
  transitivity (to_Z X * ((R * Rinv) * (R * Rinv))); [eqm_ring|].
  rewrite R_Rinv_eqm. eqm_ring.
Qed.

(** X7.  On field elements [montEncode] and [montDecode] are inverse to
    each other. *)
Theorem montEncode_montDecode_inverse (X : gfP) :
  gfP_valid X ->
  montDecode (montEncode X) = X /\ montEncode (montDecode X) = X.
Proof.
  intros HX. split.
  - apply montDecode_montEncode. exact HX.
  - apply montEncode_montDecode. exact HX.
Qed.

Lemma montEncode_montDecode_inverse_witness :
  montDecode (montEncode gfP_lit1) = gfP_lit1 /\
  montEncode (montDecode gfP_lit1) = gfP_lit1.
Proof.
  apply montEncode_montDecode_inverse.
  split; [repeat split; cbn [l0 l1 l2 l3 gfP_lit1]; lia|reflexivity].
Defined.

(** ** gfP: more on inversion *)

Lemma fermat_inverse a : a mod p <> 0 -> eqm p (a ^ (p - 2) * a) 1.
Proof.
  intros Ha. replace (a ^ (p - 2) * a) with (a ^ (p - 1)).
  - unfold eqm. rewrite (fermat_little p a p_prime Ha). reflexivity.
  - replace (p - 1) with (Z.succ (p - 2)) by lia.
    rewrite Z.pow_succ_r by (vm_compute; discriminate). apply Z.mul_comm.
Qed.

Lemma eqm_unit_nonzero b a : eqm p (b * a) 1 -> b mod p <> 0.
Proof.
  intros H Hb. unfold eqm in H.
  rewrite <- Z.mul_mod_idemp_l, Hb in H by (pose proof p_bounds; lia).
  revert H. vm_compute. discriminate.
Qed.

Lemma inverse_twice a E :
  0 < E ->
  (forall b, b mod p <> 0 -> eqm p (b ^ E * b) 1) ->
  eqm p ((a ^ E) ^ E) a.
Proof.
  intros HE Hinv. destruct (Z.eq_dec (a mod p) 0) as [H0|Hnz].
  - assert (Ha : eqm p a 0) by exact H0.
    rewrite Ha. rewrite !Z.pow_0_l by lia. reflexivity.
  - pose proof (Hinv a Hnz) as Hb.
    pose proof (Hinv (a ^ E) (eqm_unit_nonzero _ _ Hb)) as Hbb.
    revert Hb Hbb. generalize (a ^ E). intros b Hb. generalize (b ^ E).
    intros c Hc.
    transitivity (c * (b * a)); [rewrite Hb; eqm_ring|].
    transitivity ((c * b) * a); [eqm_ring|]. rewrite Hc. eqm_ring.
Qed.

Lemma decoded_value f : eqm p (to_Z f) (to_Z f * Rinv * R).
Proof.
  transitivity (to_Z f * (R * Rinv)); [rewrite R_Rinv_eqm|]; eqm_ring.
Qed.

Lemma gfP_valid_eq a b :
  gfP_valid a -> gfP_valid b -> eqm p (to_Z a) (to_Z b) -> a = b.
Proof.
  intros [Hla Ha] [Hlb Hb] H. apply to_Z_inj; try assumption.
  pose proof (to_Z_bounds a Hla). pose proof (to_Z_bounds b Hlb).
  unfold eqm in H. rewrite !Z.mod_small in H by lia. exact H.
Qed.

Lemma gfP_valid_zero : gfP_valid gfP_zero.
Proof. split; [repeat split; cbn [l0 l1 l2 l3 gfP_zero]; lia|reflexivity]. Qed.

Lemma gfP_Invert_twice f :
  gfP_valid f -> gfP_Invert (gfP_Invert f) = f.
Proof.
  intros Hf. apply gfP_valid_eq; [apply gfP_Invert_valid|exact Hf|].
  unfold eqm. rewrite gfP_Invert_value. eqm_goal.
  pose proof (gfP_Invert_value f) as H1. eqm_hyp H1. rewrite H1.
  rewrite (decoded_value f) at 2.
  generalize (to_Z f * Rinv). intros a.
  assert (H2 : eqm p (a ^ (p - 2) * R * Rinv) (a ^ (p - 2))).
  { generalize (a ^ (p - 2)). intros b.
    transitivity (b * (R * Rinv)); [eqm_ring|]. rewrite R_Rinv_eqm. eqm_ring. }
  rewrite H2.
  rewrite (inverse_twice a (p - 2));
    [reflexivity|reflexivity|intros b Hb; apply fermat_inverse; exact Hb].
Qed.

(** X8.  [Invert] is an involution of the field elements, and it sends
    zero, and only zero, to zero. *)
Theorem gfP_Invert_involutive (f : gfP) :
  gfP_valid f ->
  gfP_Invert (gfP_Invert f) = f /\ (gfP_Invert f = gfP_zero <-> f = gfP_zero).
Proof.
  intros Hf. split; [apply gfP_Invert_twice; exact Hf|]. split.
  - intros H0. rewrite <- (gfP_Invert_twice f Hf).
    rewrite H0. vm_compute. reflexivity.
  - intros ->. vm_compute. reflexivity.
Qed.

Lemma gfP_Invert_involutive_witness :
  gfP_Invert (gfP_Invert (newGFp 3)) = newGFp 3.
Proof. apply (gfP_Invert_involutive (newGFp 3)). apply gfpMul_valid. Defined.

(** ** gfP2: the field operations *)

Lemma gfP2_ext x y x' y' :
  eqm p x x' -> eqm p y y' ->
  mkGfP2 (of_Z (x mod p)) (of_Z (y mod p)) = mkGfP2 (of_Z (x' mod p)) (of_Z (y' mod p)).
Proof. intros Hx Hy. rewrite Hx, Hy. reflexivity. Qed.

Ltac gfP2_unfold :=
  unfold gfP2_Mul, gfP2_Add, gfP2_Sub, gfP2_Neg, gfP2_Conjugate, gfP2_MulScalar,
    gfP2_MulXi, gfP2_Square;
  cbn [gfP2_x gfP2_y]; rewrite ?gfP_Set_id;
  unfold gfpAdd, gfpSub, gfpNeg, gfpMul; rewrite ?to_Z_of_Z_mod.

Ltac gfP2_ring :=
  gfP2_unfold; apply gfP2_ext; rewrite ?Zmod_eqm; eqm_ring.

Lemma gfP2_Mul_valid a b : gfP2_valid (gfP2_Mul a b).
Proof.
  unfold gfP2_Mul; cbn [gfP2_x gfP2_y]. rewrite !gfP_Set_id.
  split; cbn [gfP2_x gfP2_y]; apply of_Z_mod_valid.
Qed.

Lemma gfP2_Mul_comm a b : gfP2_Mul a b = gfP2_Mul b a.
Proof. destruct a as [ax ay], b as [bx b_y]. gfP2_ring. Qed.

Lemma gfP2_Mul_assoc a b c :
  gfP2_Mul (gfP2_Mul a b) c = gfP2_Mul a (gfP2_Mul b c).
Proof. destruct a as [ax ay], b as [bx b_y], c as [cx cy]. gfP2_ring. Qed.

(** X9.  On elements whose components are field elements, [Mul] of
    [gfP2] is commutative and associative and distributes over [Add]. *)
Theorem gfP2_Mul_laws (a b c : gfP2) :
  gfP2_valid a -> gfP2_valid b -> gfP2_valid c ->
  gfP2_Mul a b = gfP2_Mul b a /\
  gfP2_Mul (gfP2_Mul a b) c = gfP2_Mul a (gfP2_Mul b c) /\
  gfP2_Mul a (gfP2_Add b c) = gfP2_Add (gfP2_Mul a b) (gfP2_Mul a c).
Proof.
  intros _ _ _.
  split; [apply gfP2_Mul_comm|]. split; [apply gfP2_Mul_assoc|].
  destruct a as [ax ay], b as [bx b_y], c as [cx cy]. gfP2_ring.
Qed.

Lemma gfP2_Mul_laws_witness :
  gfP2_Mul (mkGfP2 (newGFp 5) (newGFp 7)) (mkGfP2 (newGFp 1) (newGFp 9))
  = gfP2_Mul (mkGfP2 (newGFp 1) (newGFp 9)) (mkGfP2 (newGFp 5) (newGFp 7)).
Proof.
  destruct (gfP2_Mul_laws (mkGfP2 (newGFp 5) (newGFp 7)) (mkGfP2 (newGFp 1) (newGFp 9))
                          (mkGfP2 (newGFp 2) (newGFp 3))) as [H _].
  - split; apply gfpMul_valid.
  - split; apply gfpMul_valid.
  - split; apply gfpMul_valid.
  - exact H.
Defined.

(** X10.  For an [a] whose components are field elements, [MulXi(a)]
    is [Mul(a, xi)] for [xi = i + 9], limb for limb. *)
Theorem gfP2_MulXi_is_Mul_xi (a : gfP2) :
  gfP2_valid a -> gfP2_MulXi a = gfP2_Mul a gfP2_xi.
Proof.
  intros _.
  destruct a as [ax ay]. unfold gfP2_xi. gfP2_unfold.
  rewrite (to_Z_newGFp 1), (to_Z_newGFp 9) by lia. apply gfP2_ext; rewrite ?Zmod_eqm.
  - transitivity (9 * to_Z ax * (R * Rinv) + to_Z ay * (R * Rinv)); [|eqm_ring].
    rewrite R_Rinv_eqm. eqm_ring.
  - transitivity (9 * to_Z ay * (R * Rinv) - to_Z ax * (R * Rinv)); [|eqm_ring].
    rewrite R_Rinv_eqm. eqm_ring.
Qed.

Lemma gfP2_MulXi_is_Mul_xi_witness :
  gfP2_MulXi (mkGfP2 (newGFp 5) (newGFp 7))
  = gfP2_Mul (mkGfP2 (newGFp 5) (newGFp 7)) gfP2_xi.
Proof.
  apply (gfP2_MulXi_is_Mul_xi (mkGfP2 (newGFp 5) (newGFp 7))).
  split; apply gfpMul_valid.
Defined.

(** X11.  For field elements, [MulScalar(a, b)] is [Mul] of [a] by the
    element [0*i + b]. *)
Theorem gfP2_MulScalar_is_Mul (a : gfP2) (b : gfP) :
  gfP2_valid a -> gfP_valid b ->
  gfP2_MulScalar a b = gfP2_Mul a (mkGfP2 gfP_zero b).
Proof.
  intros _ _.
  destruct a as [ax ay]. gfP2_unfold. change (to_Z gfP_zero) with 0.
  apply gfP2_ext; rewrite ?Zmod_eqm; eqm_ring.
Qed.

Lemma gfP2_MulScalar_is_Mul_witness :
  gfP2_MulScalar (mkGfP2 (newGFp 5) (newGFp 7)) (newGFp 3)
  = gfP2_Mul (mkGfP2 (newGFp 5) (newGFp 7)) (mkGfP2 gfP_zero (newGFp 3)).
Proof.
  apply (gfP2_MulScalar_is_Mul (mkGfP2 (newGFp 5) (newGFp 7)) (newGFp 3)).
  - split; apply gfpMul_valid.
  - apply gfpMul_valid.
Defined.

Lemma gfP2_Mul_one_r a : gfP2_valid a -> gfP2_Mul a gfP2_SetOne = a.
Proof. intros Ha. rewrite gfP2_Mul_comm. apply gfP2_Mul_one_l. exact Ha. Qed.

Lemma gfP2_valid_eq a b :
  gfP2_valid a -> gfP2_valid b ->
  eqm p (to_Z (gfP2_x a)) (to_Z (gfP2_x b)) ->
  eqm p (to_Z (gfP2_y a)) (to_Z (gfP2_y b)) -> a = b.
Proof.
  destruct a as [ax ay], b as [bx b_y]. unfold gfP2_valid; cbn [gfP2_x gfP2_y].
  intros [Hax Hay] [Hbx Hby] Hx Hy. f_equal; apply gfP_valid_eq; assumption.
Qed.

Lemma gfP2_SetZero_valid : gfP2_valid gfP2_SetZero.
Proof. split; apply gfP_valid_zero. Qed.

Lemma gfP2_SetOne_valid : gfP2_valid gfP2_SetOne.
Proof. split; [apply gfP_valid_zero|apply gfpMul_valid]. Qed.

Ltac gfP2_valid_goal :=
  unfold gfP2_Add, gfP2_Sub, gfP2_Neg, gfP2_Conjugate, gfP2_Mul;
  cbn [gfP2_x gfP2_y]; rewrite ?gfP_Set_id;
  unfold gfpAdd, gfpSub, gfpNeg, gfpMul;
  split; cbn [gfP2_x gfP2_y]; first [assumption | apply of_Z_mod_valid].

Ltac gfP2_congr :=
  gfP2_unfold; cbn [gfP2_x gfP2_y]; rewrite ?to_Z_of_Z_mod; rewrite ?Zmod_eqm.

(** X12.  On elements whose components are field elements, [Sub]
    undoes [Add] and [Add] undoes [Sub], [Neg] is an involution,
    [Sub(a, b)] is [Add(a, Neg(b))], and both [a + (-a)] and [a - a]
    satisfy [IsZero]. *)
Theorem gfP2_additive_laws (a b : gfP2) :
  gfP2_valid a -> gfP2_valid b ->
  gfP2_Sub (gfP2_Add a b) b = a /\
  gfP2_Add (gfP2_Sub a b) b = a /\
  gfP2_Neg (gfP2_Neg a) = a /\
  gfP2_Sub a b = gfP2_Add a (gfP2_Neg b) /\
  gfP2_IsZero (gfP2_Add a (gfP2_Neg a)) = true /\
  gfP2_IsZero (gfP2_Sub a a) = true.
Proof.
  intros Ha _. pose proof Ha as [Hx Hy].
  repeat split.
  - apply gfP2_valid_eq; [gfP2_valid_goal|exact Ha| |];
      destruct a as [ax ay], b as [bx b_y]; gfP2_congr; eqm_ring.
  - apply gfP2_valid_eq; [gfP2_valid_goal|exact Ha| |];
      destruct a as [ax ay], b as [bx b_y]; gfP2_congr; eqm_ring.
  - apply gfP2_valid_eq; [gfP2_valid_goal|exact Ha| |];
      destruct a as [ax ay]; gfP2_congr; eqm_ring.
  - destruct a as [ax ay], b as [bx b_y]. gfP2_ring.
  - replace (gfP2_Add a (gfP2_Neg a)) with gfP2_SetZero; [reflexivity|].
    symmetry. apply gfP2_valid_eq; [gfP2_valid_goal|apply gfP2_SetZero_valid| |];
      destruct a as [ax ay]; gfP2_congr; cbn [gfP2_SetZero gfP2_x gfP2_y];
      change (to_Z gfP_zero) with 0; eqm_ring.
  - replace (gfP2_Sub a a) with gfP2_SetZero; [reflexivity|].
    symmetry. apply gfP2_valid_eq; [gfP2_valid_goal|apply gfP2_SetZero_valid| |];
      destruct a as [ax ay]; gfP2_congr; cbn [gfP2_SetZero gfP2_x gfP2_y];
      change (to_Z gfP_zero) with 0; eqm_ring.
Qed.

Lemma gfP2_additive_laws_witness :
  gfP2_Sub (gfP2_Add gfP2_SetOne gfP2_xi) gfP2_xi = gfP2_SetOne.
Proof.
  apply (gfP2_additive_laws gfP2_SetOne gfP2_xi).
  - apply gfP2_SetOne_valid.
  - split; apply gfpMul_valid.
Defined.

(** X13.  On elements whose components are field elements,
    [Conjugate] commutes with [Mul], the product of an element with its
    conjugate has no imaginary part (it is the norm [x^2 + y^2]), and
    [Conjugate] is an involution. *)
Theorem gfP2_Conjugate_laws (a b : gfP2) :
  gfP2_valid a -> gfP2_valid b ->
  gfP2_Conjugate (gfP2_Mul a b) = gfP2_Mul (gfP2_Conjugate a) (gfP2_Conjugate b) /\
  gfP2_Mul a (gfP2_Conjugate a) =
    mkGfP2 gfP_zero (gfpAdd (gfpMul (gfP2_x a) (gfP2_x a))
                            (gfpMul (gfP2_y a) (gfP2_y a))) /\
  gfP2_Conjugate (gfP2_Conjugate a) = a.
Proof.
  intros Ha _. repeat split.
  - destruct a as [ax ay], b as [bx b_y]. gfP2_ring.
  - destruct a as [ax ay]. gfP2_unfold.
    change gfP_zero with (of_Z (0 mod p)).
    apply gfP2_ext; rewrite ?Zmod_eqm; eqm_ring.
  - pose proof Ha as [Hx Hy].
    apply gfP2_valid_eq; [gfP2_valid_goal|exact Ha| |];
      destruct a as [ax ay]; gfP2_congr; eqm_ring.
Qed.

Lemma gfP2_Conjugate_laws_witness :
  gfP2_Conjugate (gfP2_Conjugate gfP2_xi) = gfP2_xi.
Proof.
  apply (gfP2_Conjugate_laws gfP2_xi gfP2_xi); split; apply gfpMul_valid.
Defined.

(** ** gfP2: inversion *)

Lemma minus_one_non_residue y : (y * y) mod p <> (-1) mod p.
Proof. apply euler_non_residue. vm_compute. reflexivity. Qed.

Lemma eqm_zero_nonzero a : a mod p <> 0 -> forall b, eqm p (a * b) 0 -> eqm p b 0.
Proof.
  intros Ha b H. pose proof (fermat_inverse a Ha) as Hinv. revert Hinv.
  generalize (a ^ (p - 2)). intros w Hw.
  transitivity ((w * a) * b); [rewrite Hw; eqm_ring|].
  transitivity (w * (a * b)); [eqm_ring|]. rewrite H. eqm_ring.
Qed.

Lemma sum_squares_zero_r X Y : eqm p (X * X + Y * Y) 0 -> Y mod p = 0.
Proof.
  intros H. destruct (Z.eq_dec (Y mod p) 0) as [HY|HY]; [exact HY|exfalso].
  pose proof (fermat_inverse Y HY) as Hinv. revert Hinv.
  generalize (Y ^ (p - 2)). intros w Hw.
  apply (minus_one_non_residue (X * w)). eqm_goal.
  transitivity ((X * X + Y * Y) * (w * w) - (w * Y) * (w * Y)); [eqm_ring|].
  rewrite H, Hw. eqm_ring.
Qed.

Lemma sum_squares_zero X Y :
  eqm p (X * X + Y * Y) 0 -> X mod p = 0 /\ Y mod p = 0.
Proof.
  intros H. split; [|apply (sum_squares_zero_r X Y H)].
  apply (sum_squares_zero_r Y X). rewrite <- H. eqm_ring.
Qed.

Lemma gfP_valid_mod_zero a : gfP_valid a -> to_Z a mod p = 0 -> a = gfP_zero.
Proof.
  intros Ha H. apply gfP_valid_eq; [exact Ha|apply gfP_valid_zero|].
  unfold eqm. rewrite H. reflexivity.
Qed.

Lemma gfP2_Mul_inverse ax ay inv w :
  eqm p (to_Z inv) (w * R) ->
  eqm p (w * ((to_Z ax * to_Z ax + to_Z ay * to_Z ay) * Rinv * Rinv)) 1 ->
  gfP2_Mul (mkGfP2 ax ay) (mkGfP2 (gfpMul (gfpNeg ax) inv) (gfpMul ay inv))
  = gfP2_SetOne.
Proof.
  intros Hinv Hw.
  apply gfP2_valid_eq; [apply gfP2_Mul_valid|apply gfP2_SetOne_valid| |].
  - gfP2_congr. cbn [gfP2_SetOne gfP2_x gfP2_y].
    change (to_Z gfP_zero) with 0.
    match goal with |- eqm p ?X 0 => replace X with 0 by ring end. reflexivity.
  - gfP2_congr. cbn [gfP2_SetOne gfP2_x gfP2_y].
    rewrite to_Z_newGFp_1, Zmod_eqm. rewrite Hinv.
    transitivity ((w * ((to_Z ax * to_Z ax + to_Z ay * to_Z ay) * Rinv * Rinv))
                  * R); [eqm_ring|].
    rewrite Hw. eqm_ring.
Qed.

Lemma decoded_norm_nonzero ax ay :
  gfP_valid ax -> gfP_valid ay -> mkGfP2 ax ay <> gfP2_SetZero ->
  ((to_Z ax * to_Z ax + to_Z ay * to_Z ay) * Rinv * Rinv) mod p <> 0.
Proof.
  intros Hx Hy Hnz HN0. apply Hnz.
  assert (Hs : eqm p (to_Z ax * to_Z ax + to_Z ay * to_Z ay) 0).
  { transitivity ((to_Z ax * to_Z ax + to_Z ay * to_Z ay)
                  * ((R * Rinv) * (R * Rinv))).
    - rewrite R_Rinv_eqm. eqm_ring.
    - transitivity ((to_Z ax * to_Z ax + to_Z ay * to_Z ay) * Rinv * Rinv * (R * R));
        [eqm_ring|].
      assert (HN' : eqm p ((to_Z ax * to_Z ax + to_Z ay * to_Z ay) * Rinv * Rinv) 0)
        by exact HN0.
      rewrite HN'. eqm_ring. }
  destruct (sum_squares_zero _ _ Hs) as [H1 H2].
  unfold gfP2_SetZero. f_equal; apply gfP_valid_mod_zero; assumption.
Qed.

Lemma gfP2_Invert_Mul a :
  gfP2_valid a -> a <> gfP2_SetZero -> gfP2_Mul a (gfP2_Invert a) = gfP2_SetOne.
Proof.
  intros Ha Hnz. pose proof Ha as [Hx Hy].
  destruct a as [ax ay]. cbn [gfP2_x gfP2_y] in Hx, Hy.
  pose proof (decoded_norm_nonzero ax ay Hx Hy Hnz) as HN.
  unfold gfP2_Invert. cbv zeta. cbn [gfP2_x gfP2_y].
  pose proof (gfP_Invert_value (gfpAdd (gfpMul ax ax) (gfpMul ay ay))) as Hinv.
  revert Hinv. generalize (gfP_Invert (gfpAdd (gfpMul ax ax) (gfpMul ay ay))).
  intros inv Hinv.
  rewrite to_Z_gfpAdd, !to_Z_gfpMul in Hinv. eqm_hyp Hinv.
  rewrite !Zmod_eqm in Hinv.
  replace ((to_Z ax * to_Z ax * Rinv + to_Z ay * to_Z ay * Rinv) * Rinv)
    with ((to_Z ax * to_Z ax + to_Z ay * to_Z ay) * Rinv * Rinv) in Hinv by ring.
  pose proof (fermat_inverse _ HN) as Hfer. revert Hinv Hfer.
  generalize (((to_Z ax * to_Z ax + to_Z ay * to_Z ay) * Rinv * Rinv) ^ (p - 2)).
  intros w Hinv Hfer.
  apply (gfP2_Mul_inverse ax ay inv w Hinv Hfer).
Qed.

(** X14.  For every [gfP2] element [a] other than zero, [Mul(a, Invert(a))]
    is the one of [SetOne]; [Invert] of zero is zero. *)
Theorem gfP2_Invert_law (a : gfP2) :
  gfP2_valid a ->
  (a <> gfP2_SetZero -> gfP2_Mul a (gfP2_Invert a) = gfP2_SetOne) /\
  gfP2_Invert gfP2_SetZero = gfP2_SetZero.
Proof.
  intros Ha. split; [apply gfP2_Invert_Mul; exact Ha|].
  vm_compute. reflexivity.
Qed.

Lemma gfP2_Invert_law_witness :
  gfP2_Mul gfP2_xi (gfP2_Invert gfP2_xi) = gfP2_SetOne.
Proof.
  apply (gfP2_Invert_law gfP2_xi).
  - split; apply gfpMul_valid.
  - vm_compute. discriminate.
Defined.

(** ** gfP2: exponentiation in general *)

Lemma gfP2_pow_valid a n : gfP2_valid (gfP2_pow a n).
Proof.
  destruct n as [|n]; cbn [gfP2_pow];
    [apply gfP2_SetOne_valid|apply gfP2_Mul_valid].
Qed.

Lemma gfP2_pow_add a m k :
  gfP2_Mul (gfP2_pow a m) (gfP2_pow a k) = gfP2_pow a (m + k).
Proof.
  induction k as [|k IH].
  - cbn [gfP2_pow]. rewrite Nat.add_0_r. apply gfP2_Mul_one_r. apply gfP2_pow_valid.
  - cbn [gfP2_pow]. rewrite <- gfP2_Mul_assoc, IH, Nat.add_succ_r. reflexivity.
Qed.

Lemma land_pow2_test b k :
  0 <= k -> (Z.land b (2 ^ k) =? 0) = negb (Z.testbit b k).
Proof.
  intros Hk.
  assert (H : Z.land b (2 ^ k) = if Z.testbit b k then 2 ^ k else 0).
  { apply Z.bits_inj'. intros i Hi. rewrite Z.land_spec, Z.pow2_bits_eqb by lia.
    destruct (Z.eqb_spec k i) as [->|Hne].
    - destruct (Z.testbit b i); cbn [andb].
      + rewrite Z.pow2_bits_true by lia. reflexivity.
      + rewrite Z.bits_0. reflexivity.
    - rewrite andb_false_r. destruct (Z.testbit b k).
      + rewrite Z.pow2_bits_false by lia. reflexivity.
      + rewrite Z.bits_0. reflexivity. }
  rewrite H. destruct (Z.testbit b k); cbn [negb].
  - apply Z.eqb_neq. assert (0 < 2 ^ k) by (apply Z.pow_pos_nonneg; lia). lia.
  - reflexivity.
Qed.

Lemma exp_step_spec a b j E muls :
  0 <= j <= 7 -> 0 <= E ->
  exists muls',
    exp_step a b (gfP2_pow a (Z.to_nat E), negb (E =? 0), muls) j
    = (gfP2_pow a (Z.to_nat (2 * E + Z.b2z (Z.testbit b (7 - j)))),
       negb (2 * E + Z.b2z (Z.testbit b (7 - j)) =? 0), muls').
Proof.
  intros Hj HE. unfold exp_step. rewrite land_pow2_test by lia.
  rewrite negb_involutive.
  assert (Hdouble : (if negb (E =? 0)
                     then (gfP2_Mul (gfP2_pow a (Z.to_nat E)) (gfP2_pow a (Z.to_nat E)),
                           S muls)
                     else (gfP2_pow a (Z.to_nat E), muls))
                    = (gfP2_pow a (Z.to_nat (2 * E)),
                       if negb (E =? 0) then S muls else muls)).
  { destruct (Z.eqb_spec E 0) as [->|Hnz]; cbn [negb]; [reflexivity|].
    rewrite gfP2_pow_add. do 2 f_equal. lia. }
  rewrite Hdouble.
  destruct (Z.testbit b (7 - j)); cbn [Z.b2z].
  - replace (Z.to_nat (2 * E + 1)) with (S (Z.to_nat (2 * E))) by lia.
    replace (negb (2 * E + 1 =? 0)) with true
      by (symmetry; apply negb_true_iff; apply Z.eqb_neq; lia).
    eexists. reflexivity.
  - rewrite Z.add_0_r.
    replace (negb (2 * E =? 0)) with (negb (E =? 0))
      by (destruct (Z.eqb_spec E 0), (Z.eqb_spec (2 * E) 0); try reflexivity; lia).
    eexists. reflexivity.
Qed.

Lemma exp_byte_loop a b :
  0 <= b < 256 -> forall k, (k <= 8)%nat -> forall E muls, 0 <= E ->
  exists muls',
    fold_left (exp_step a b) (range k) (gfP2_pow a (Z.to_nat E), negb (E =? 0), muls)
    = (gfP2_pow a (Z.to_nat (E * 2 ^ Z.of_nat k + b / 2 ^ (8 - Z.of_nat k))),
       negb (E * 2 ^ Z.of_nat k + b / 2 ^ (8 - Z.of_nat k) =? 0), muls').
Proof.
  intros Hb k. induction k as [|k IH]; intros Hk E muls HE.
  - exists muls. cbn [range seq map fold_left].
    change (2 ^ Z.of_nat 0) with 1. change (8 - Z.of_nat 0) with 8.
    rewrite Z.div_small by lia. rewrite Z.mul_1_r, Z.add_0_r. reflexivity.
  - destruct (IH ltac:(lia) E muls HE) as [m1 H1].
    rewrite range_S, fold_left_app, H1. cbn [fold_left].
    set (F := E * 2 ^ Z.of_nat k + b / 2 ^ (8 - Z.of_nat k)).
    assert (H2k : 0 < 2 ^ Z.of_nat k) by (apply Z.pow_pos_nonneg; lia).
    assert (Hq : 0 <= b / 2 ^ (8 - Z.of_nat k)).
    { apply Z.div_pos; [lia|]. apply Z.pow_pos_nonneg; lia. }
    assert (HF : 0 <= F) by (unfold F; nia).
    destruct (exp_step_spec a b (Z.of_nat k) F m1 ltac:(lia) HF) as [m2 H2].
    rewrite H2. exists m2.
    assert (Hexp : 2 * F + Z.b2z (Z.testbit b (7 - Z.of_nat k))
                   = E * 2 ^ Z.of_nat (S k) + b / 2 ^ (8 - Z.of_nat (S k))).
    { unfold F. rewrite Nat2Z.inj_succ, Z.pow_succ_r by lia.
      replace (8 - Z.succ (Z.of_nat k)) with (7 - Z.of_nat k) by lia.
      replace (8 - Z.of_nat k) with (Z.succ (7 - Z.of_nat k)) by lia.
      rewrite Z.pow_succ_r by lia.
      rewrite Z.testbit_odd, Z.shiftr_div_pow2 by lia.
      assert (H7 : 0 < 2 ^ (7 - Z.of_nat k)) by (apply Z.pow_pos_nonneg; lia).
      rewrite (Z.mul_comm 2 (2 ^ (7 - Z.of_nat k))).
      rewrite <- Z.div_div by lia.
      generalize (b / 2 ^ (7 - Z.of_nat k)). intros q.
      pose proof (Z.div2_odd q) as Hq2. rewrite Z.div2_div in Hq2. lia. }
    rewrite Hexp. reflexivity.
Qed.

Lemma exp_bytes_loop a L :
  bytes_ok L -> forall E muls, 0 <= E ->
  exists muls',
    fold_left (fun st b => fold_left (exp_step a b) (range 8) st) L
              (gfP2_pow a (Z.to_nat E), negb (E =? 0), muls)
    = (gfP2_pow a (Z.to_nat (fold_left (fun acc b => acc * 256 + b) L E)),
       negb (fold_left (fun acc b => acc * 256 + b) L E =? 0), muls').
Proof.
  intros HL. induction HL as [|b L Hb HL IH]; intros E muls HE.
  - exists muls. reflexivity.
  - cbn [fold_left].
    destruct (exp_byte_loop a b Hb 8%nat ltac:(lia) E muls HE) as [m1 H1].
    rewrite H1. change (2 ^ Z.of_nat 8) with 256. change (8 - Z.of_nat 8) with 0.
    change (2 ^ 0) with 1. rewrite Z.div_1_r.
    apply IH. lia.
Qed.

Lemma big_Bytes_abs n : big_Bytes n = big_Bytes (Z.abs n).
Proof.
  unfold big_Bytes. rewrite (Z.abs_eq (Z.abs n)) by apply Z.abs_nonneg. reflexivity.
Qed.

(** X15.  [Exp(a, n)] is the product of [|n|] copies of [a], starting
    from the one of [SetOne]: square-and-multiply over the bits of the
    absolute value of the exponent computes the power. *)
Theorem gfP2_Exp_power (a : gfP2) (n : Z) :
  gfP2_Exp a n = gfP2_pow a (Z.abs_nat n).
Proof.
  unfold gfP2_Exp, gfP2_Exp_counting. cbv zeta. rewrite gfP2_Set_id.
  rewrite big_Bytes_abs.
  destruct (big_Bytes_spec (Z.abs n) (Z.abs_nonneg n)) as (Hok & Hval & _).
  destruct (exp_bytes_loop a _ Hok 0 O ltac:(lia)) as [m H].
  change (gfP2_pow a (Z.to_nat 0)) with gfP2_SetOne in H.
  change (negb (0 =? 0)) with false in H. rewrite H.
  cbn [fst]. rewrite gfP2_Set_id. fold (be_value (big_Bytes (Z.abs n))).
  rewrite Hval, Zabs2Nat.abs_nat_spec. reflexivity.
Qed.

(** ** G1: comparing field elements *)

(** X16.  [gfpComp(a, b)] is 1, 0 or -1 as the integer the limbs of [a]
    spell is greater than, equal to or less than that of [b]. *)
Theorem gfpComp_spec (a b : gfP) :
  limbs_ok a -> limbs_ok b ->
  gfpComp a b = match to_Z a ?= to_Z b with Gt => 1 | Eq => 0 | Lt => -1 end.
Proof.
  destruct a as [a0 a1 a2 a3], b as [b0 b1 b2 b3].
  unfold limbs_ok, to_Z, gfpComp; cbn [l0 l1 l2 l3 comp_loop limb].
  intros (Ha0 & Ha1 & Ha2 & Ha3) (Hb0 & Hb1 & Hb2 & Hb3).
  match goal with |- _ = match ?u ?= ?v with _ => _ end =>
    destruct (Z.compare_spec u v) end;
  repeat match goal with
         | |- context [?u >? ?v] => destruct (Z.gtb_spec u v)
         | |- context [?u =? ?v] => destruct (Z.eqb_spec u v)
         end; try reflexivity; exfalso; lia.
Qed.

Lemma gfpComp_spec_witness :
  gfpComp p2 invert_bits = 1 /\ gfpComp invert_bits p2 = -1 /\ gfpComp p2 p2 = 0.
Proof.
  assert (H1 : limbs_ok p2) by (repeat split; cbn [l0 l1 l2 l3 p2]; lia).
  assert (H2 : limbs_ok invert_bits)
    by (repeat split; cbn [l0 l1 l2 l3 invert_bits]; lia).
  rewrite (gfpComp_spec p2 invert_bits H1 H2), (gfpComp_spec invert_bits p2 H2 H1),
    (gfpComp_spec p2 p2 H1 H1).
  repeat split.
Defined.

Lemma higher_loop_comp_loop idx a b :
  higher_loop idx a b = (comp_loop idx a b =? 1).
Proof.
  induction idx as [|i idx IH]; cbn [higher_loop comp_loop]; [reflexivity|].
  destruct (Z.gtb_spec (limb a i) (limb b i)); [reflexivity|].
  destruct (Z.ltb_spec (limb a i) (limb b i)), (Z.eqb_spec (limb a i) (limb b i));
    try reflexivity; try lia. exact IH.
Qed.

(** X17.  The loop of [IsHigherY] is [gfpComp]: [IsHigherY] returns true
    exactly when [gfpComp(y, -y)] is 1; on a [G1] whose point is nil it
    panics. *)
Theorem G1_IsHigherY_is_gfpComp (e : G1) :
  G1_IsHigherY e =
    match G1_p e with
    | None => Panic
    | Some c => Done (gfpComp (cp_y c) (gfpNeg (cp_y c)) =? 1)
    end.
Proof.
  unfold G1_IsHigherY, gfpComp. destruct (G1_p e) as [c|]; [|reflexivity].
  cbv zeta. rewrite gfP_Set_id, higher_loop_comp_loop. reflexivity.
Qed.

(** ** G1: the compressed encoding of a finite point *)

Lemma G1_EncodeCompressed_affine e c :
  G1_p e = Some c -> IsInfinity (MakeAffine c) = false ->
  G1_EncodeCompressed e =
    Done (mkG1 (Some (MakeAffine c)),
          (if higher_loop [3; 2; 1; 0] (cp_y (MakeAffine c))
                          (gfpNeg (cp_y (MakeAffine c)))
           then 0xA0 else 0x80)
          :: marshal_bytes (montDecode (cp_x (MakeAffine c)))).
Proof.
  intros Hp Hinf. unfold G1_EncodeCompressed. rewrite Hp, Hinf.
  unfold G1_IsHigherY; cbn [G1_p bind]. rewrite gfP_Set_id.
  generalize (montDecode (cp_x (MakeAffine c))). intros t.
  destruct (higher_loop _ _ _).
  - rewrite gfP_Marshal_long by (apply Nat.leb_le; reflexivity). reflexivity.
  - rewrite gfP_Marshal_long by (apply Nat.leb_le; reflexivity). reflexivity.
Qed.

(** X18.  For a point that is not at infinity [EncodeCompressed] returns
    33 bytes: the flag byte [0xA0] when [IsHigherY] holds of the affine
    point and [0x80] when it does not, then the 32 bytes of the decoded
    [x], most significant first, which spell an integer below [p]. *)
Theorem G1_EncodeCompressed_finite (e : G1) (c : curvePoint) :
  G1_p e = Some c -> IsInfinity (MakeAffine c) = false ->
  let c' := MakeAffine c in
  exists higher payload,
    G1_IsHigherY (mkG1 (Some c')) = Done higher /\
    G1_EncodeCompressed e =
      Done (mkG1 (Some c'), (if higher then 0xA0 else 0x80) :: payload) /\
    length payload = 32%nat /\ bytes_ok payload /\
    be_value payload = to_Z (montDecode (cp_x c')) /\
    be_value payload < p.
Proof.
  intros Hp Hinf c'.
  destruct (gfpMul_valid (cp_x c') gfP_lit1) as [Hl Hv].
  fold (montDecode (cp_x c')) in Hl, Hv.
  destruct (marshal_bytes_spec _ Hl) as (Hlen & Hok & _ & Hval).
  exists (higher_loop [3; 2; 1; 0] (cp_y c') (gfpNeg (cp_y c'))),
         (marshal_bytes (montDecode (cp_x c'))).
  split; [unfold G1_IsHigherY; cbn [G1_p]; rewrite gfP_Set_id; reflexivity|].
  split; [apply G1_EncodeCompressed_affine; assumption|].
  repeat split; try assumption. rewrite Hval. exact Hv.
Qed.

Lemma G1_EncodeCompressed_finite_witness :
  exists e' flag payload,
    G1_EncodeCompressed G1_generator = Done (e', flag :: payload) /\
    be_value payload = 1.
Proof.
  destruct (G1_EncodeCompressed_finite G1_generator
              (mkCurvePoint (newGFp 1) (newGFp 2) (newGFp 1) (newGFp 1)))
    as (h & pl & _ & Henc & _ & _ & Hval & _).
  - reflexivity.
  - vm_compute. reflexivity.
  - do 3 eexists. split; [exact Henc|]. rewrite Hval. vm_compute. reflexivity.
Defined.

(** ** G1: where the errors of [DecodeCompressed] come from *)

Lemma bind_Done (A B : Type) (a : A) (k : A -> outcome B) : bind (Done a) k = k a.
Proof. reflexivity. Qed.

Lemma bind_Panic (A B : Type) (k : A -> outcome B) : bind Panic k = Panic.
Proof. reflexivity. Qed.

Lemma modulus_check_errors e err :
  modulus_check [3; 2; 1; 0] e = Some err ->
  err = ErrExceedsModulus \/ err = ErrEqualsModulus.
Proof.
  cbn [modulus_check].
  repeat match goal with
         | |- context [?u >? ?v] => destruct (u >? v)
         | |- context [?u <? ?v] => destruct (u <? v)
         end; intros H; try discriminate H; injection H as <-; auto.
Qed.

Lemma gfP_Unmarshal_errors e inp e' err :
  gfP_Unmarshal e inp = Done (e', Some err) ->
  err = ErrExceedsModulus \/ err = ErrEqualsModulus.
Proof.
  unfold gfP_Unmarshal.
  destruct (fold_left _ (range 4) (Done e)) as [e1|]; cbn [bind]; [|discriminate].
  intros H. injection H as _ H. apply (modulus_check_errors _ _ H).
Qed.

Lemma getYFromMontEncodedX_errors x err :
  getYFromMontEncodedX x = Done (inr err) -> err = ErrNotASquare.
Proof.
  unfold getYFromMontEncodedX. cbv zeta.
  destruct (big_ModSqrt _ p) as [c|].
  - destruct (newGFpFromBigInt c); cbn [bind]; discriminate.
  - intros H. injection H as <-. reflexivity.
Qed.

Lemma G1_DecodeCompressed_finite_branch e enc :
  length enc = 33%nat ->
  first_and enc serializationCompressed <> 0 ->
  first_and enc serializationInfinity = 0 ->
  let c0 := decode_start e in
  G1_DecodeCompressed e enc =
    (r <- gfP_Unmarshal gfP_zero (skipn 1 enc) ;;
     match snd r with
     | Some err =>
         Done (mkG1 (Some (mkCurvePoint (fst r) gfP_zero (cp_z c0) (cp_t c0))), Some err)
     | None =>
         r' <- getYFromMontEncodedX (montEncode (fst r)) ;;
         match r' with
         | inr err =>
             Done (mkG1 (Some (mkCurvePoint (montEncode (fst r)) gfP_zero
                                            (cp_z c0) (cp_t c0))), Some err)
         | inl y =>
             e' <- fix_sign (mkG1 (Some (mkCurvePoint (montEncode (fst r)) y
                                                      (cp_z c0) (cp_t c0)))) enc ;;
             Done (e', None)
         end
     end).
Proof.
  intros Hlen Hc Hi c0. unfold G1_DecodeCompressed.
  rewrite Hlen. change (Z.of_nat 33 =? G1CompressedSize) with true. cbn [negb].
  apply Z.eqb_neq in Hc. rewrite Hc. rewrite Hi. cbn [Z.eqb negb].
  unfold c0, decode_start.
  destruct (G1_p e); cbn [cp_x cp_y cp_z cp_t];
    (destruct (gfP_Unmarshal gfP_zero (skipn 1 enc)) as [[x [err|]]|];
     cbn [bind fst snd]; reflexivity).
Qed.

Lemma G1_DecodeCompressed_infinity_branch e enc :
  length enc = 33%nat ->
  first_and enc serializationCompressed <> 0 ->
  first_and enc serializationInfinity <> 0 ->
  exists e', G1_DecodeCompressed e enc =
    Done (e', Some (if first_and enc serializationBigY =? 0
                    then ErrInvalidInfinity else ErrHighYBit)).
Proof.
  intros Hlen Hc Hi. unfold G1_DecodeCompressed.
  rewrite Hlen. change (Z.of_nat 33 =? G1CompressedSize) with true. cbn [negb].
  apply Z.eqb_neq in Hc. rewrite Hc.
  pose proof Hi as Hi'. apply Z.eqb_neq in Hi'. rewrite Hi'. cbn [negb].
  destruct (first_and enc serializationBigY =? 0); cbn [negb].
  - assert (Hex : existsb (fun b => negb (b =? 0)) enc = true).
    { unfold first_and in Hi. destruct enc as [|b rest]; [discriminate Hlen|].
      cbn [nth] in Hi. apply land_nonzero_nonzero in Hi.
      cbn [existsb]. apply Z.eqb_neq in Hi. rewrite Hi. reflexivity. }
    rewrite Hex. eexists. reflexivity.
  - eexists. reflexivity.
Qed.

Lemma decode_finite_cases
  (U : outcome (gfP * option error)) (Y : gfP -> outcome (gfP + error))
  (F : gfP -> gfP -> outcome G1) (z t : gfP) (e' : G1) (r : option error) :
  (r0 <- U ;;
   match snd r0 with
   | Some err => Done (mkG1 (Some (mkCurvePoint (fst r0) gfP_zero z t)), Some err)
   | None =>
       r' <- Y (montEncode (fst r0)) ;;
       match r' with
       | inr err =>
           Done (mkG1 (Some (mkCurvePoint (montEncode (fst r0)) gfP_zero z t)), Some err)
       | inl y => e1 <- F (montEncode (fst r0)) y ;; Done (e1, None)
       end
   end) = Done (e', r) ->
  (exists x uerr, U = Done (x, Some uerr) /\ r = Some uerr) \/
  (exists x yerr, U = Done (x, None) /\ Y (montEncode x) = Done (inr yerr) /\
                  r = Some yerr) \/
  (exists x y, U = Done (x, None) /\ Y (montEncode x) = Done (inl y) /\
               F (montEncode x) y = Done e' /\ r = None).
Proof.
  destruct U as [[x [uerr|]]|]; cbn [bind fst snd]; [| |discriminate].
  - intros H. injection H as _ <-. left. exists x, uerr. split; reflexivity.
  - destruct (Y (montEncode x)) as [[y|yerr]|] eqn:HY; cbn [bind]; [| |discriminate].
    + destruct (F (montEncode x) y) as [e1|] eqn:HF; cbn [bind]; [|discriminate].
      intros H. injection H as <- <-. right. right. exists x, y.
      repeat split; assumption.
    + intros H. injection H as _ <-. right. left. exists x, yerr.
      repeat split; assumption.
Qed.

Lemma G1_DecodeCompressed_error_cases (e e' : G1) (enc : list Z) (err : error) :
  G1_DecodeCompressed e enc = Done (e', Some err) ->
  match err with
  | ErrWrongSize => length enc <> 33%nat /\ e' = e
  | ErrNotCompressed =>
      length enc = 33%nat /\ first_and enc serializationCompressed = 0 /\ e' = e
  | ErrHighYBit =>
      length enc = 33%nat /\ first_and enc serializationCompressed <> 0 /\
      first_and enc serializationInfinity <> 0 /\
      first_and enc serializationBigY <> 0
  | ErrInvalidInfinity =>
      length enc = 33%nat /\ first_and enc serializationCompressed <> 0 /\
      first_and enc serializationInfinity <> 0 /\
      first_and enc serializationBigY = 0
  | ErrExceedsModulus | ErrEqualsModulus | ErrNotASquare =>
      length enc = 33%nat /\ first_and enc serializationCompressed <> 0 /\
      first_and enc serializationInfinity = 0
  end.
Proof.
  intros H.
  destruct (Nat.eq_dec (length enc) 33) as [Hlen|Hlen].
  2:{ unfold G1_DecodeCompressed in H.
      replace (Z.of_nat (length enc) =? G1CompressedSize) with false in H
        by (symmetry; apply Z.eqb_neq; unfold G1CompressedSize, FqElementSize; lia).
      cbn [negb] in H. injection H as <- <-. split; [exact Hlen|reflexivity]. }
  destruct (Z.eq_dec (first_and enc serializationCompressed) 0) as [Hc|Hc].
  { unfold G1_DecodeCompressed in H. rewrite Hlen in H.
    change (Z.of_nat 33 =? G1CompressedSize) with true in H. cbn [negb] in H.
    rewrite Hc in H. cbn [Z.eqb] in H. injection H as <- <-. auto. }
  destruct (Z.eq_dec (first_and enc serializationInfinity) 0) as [Hi|Hi].
  - rewrite (G1_DecodeCompressed_finite_branch e enc Hlen Hc Hi) in H.
    apply (decode_finite_cases
             (gfP_Unmarshal gfP_zero (skipn 1 enc)) getYFromMontEncodedX
             (fun x y => fix_sign (mkG1 (Some (mkCurvePoint x y (cp_z (decode_start e))
                                                           (cp_t (decode_start e))))) enc))
      in H.
    destruct H as [(x & uerr & Hu & Hr)|[(x & yerr & _ & Hy & Hr)|(x & y & _ & _ & _ & Hr)]];
      [| |discriminate Hr].
    + injection Hr as <-.
      destruct (gfP_Unmarshal_errors _ _ _ _ Hu) as [-> | ->]; auto.
    + injection Hr as <-. rewrite (getYFromMontEncodedX_errors _ _ Hy). auto.
  - destruct (G1_DecodeCompressed_infinity_branch e enc Hlen Hc Hi) as [e1 H1].
    rewrite H1 in H. injection H as _ <-.
    destruct (Z.eqb_spec (first_and enc serializationBigY) 0); auto.
Qed.

(** X19.  Each error of [DecodeCompressed] has one origin.  The size
    error is returned exactly when the length is not 33, and the
    not-compressed error exactly when the length is 33 and the
    COMPRESSED bit is clear, both with the receiver untouched.  "High Y
    bit improperly set" is returned exactly when the length is 33 and
    the COMPRESSED, INFINITY and BIGY bits are all set, and "invalid
    infinity encoding" exactly when the first two are set and BIGY is
    clear.  The coordinate and not-a-square errors arise only with
    COMPRESSED set and INFINITY clear. *)
Theorem G1_DecodeCompressed_error_origin (e : G1) (enc : list Z) :
  ((exists e', G1_DecodeCompressed e enc = Done (e', Some ErrWrongSize)) <->
   length enc <> 33%nat) /\
  ((exists e', G1_DecodeCompressed e enc = Done (e', Some ErrNotCompressed)) <->
   length enc = 33%nat /\ first_and enc serializationCompressed = 0) /\
  ((exists e', G1_DecodeCompressed e enc = Done (e', Some ErrHighYBit)) <->
   length enc = 33%nat /\ first_and enc serializationCompressed <> 0 /\
   first_and enc serializationInfinity <> 0 /\
   first_and enc serializationBigY <> 0) /\
  ((exists e', G1_DecodeCompressed e enc = Done (e', Some ErrInvalidInfinity)) <->
   length enc = 33%nat /\ first_and enc serializationCompressed <> 0 /\
   first_and enc serializationInfinity <> 0 /\
   first_and enc serializationBigY = 0) /\
  (forall e' err,
     G1_DecodeCompressed e enc = Done (e', Some err) ->
     match err with
     | ErrWrongSize | ErrNotCompressed => e' = e
     | ErrHighYBit | ErrInvalidInfinity => first_and enc serializationInfinity <> 0
     | ErrExceedsModulus | ErrEqualsModulus | ErrNotASquare =>
         length enc = 33%nat /\ first_and enc serializationCompressed <> 0 /\
         first_and enc serializationInfinity = 0
     end).
Proof.
  split; [|split; [|split; [|split]]].
  - split.
    + intros [e' H]. apply (G1_DecodeCompressed_error_cases _ _ _ _ H).
    + intros Hlen. exists e. unfold G1_DecodeCompressed.
      replace (Z.of_nat (length enc) =? G1CompressedSize) with false
        by (symmetry; apply Z.eqb_neq; unfold G1CompressedSize, FqElementSize; lia).
      reflexivity.
  - split.
    + intros [e' H]. pose proof (G1_DecodeCompressed_error_cases _ _ _ _ H) as Ho.
      cbv beta iota in Ho. split; apply Ho.
    + intros [Hlen Hc]. exists e. unfold G1_DecodeCompressed.
      rewrite Hlen. change (Z.of_nat 33 =? G1CompressedSize) with true. cbn [negb].
      rewrite Hc. reflexivity.
  - split.
    + intros [e' H]. apply (G1_DecodeCompressed_error_cases _ _ _ _ H).
    + intros (Hlen & Hc & Hi & Hy).
      destruct (G1_DecodeCompressed_infinity_branch e enc Hlen Hc Hi) as [e1 H1].
      apply Z.eqb_neq in Hy. rewrite Hy in H1. exists e1. exact H1.
  - split.
    + intros [e' H]. apply (G1_DecodeCompressed_error_cases _ _ _ _ H).
    + intros (Hlen & Hc & Hi & Hy).
      destruct (G1_DecodeCompressed_infinity_branch e enc Hlen Hc Hi) as [e1 H1].
      rewrite Hy in H1. exists e1. exact H1.
  - intros e' err H. pose proof (G1_DecodeCompressed_error_cases _ _ _ _ H) as Ho.
    destruct err; cbv beta iota in Ho; try apply Ho.
Qed.

Lemma G1_DecodeCompressed_error_origin_witness :
  (exists e', G1_DecodeCompressed (mkG1 None) (0xC0 :: repeat 0 32)
              = Done (e', Some ErrInvalidInfinity)) /\
  (exists e', G1_DecodeCompressed (mkG1 None) [0x80; 1]
              = Done (e', Some ErrWrongSize)).
Proof.
  split.
  - destruct (G1_DecodeCompressed_error_origin (mkG1 None) (0xC0 :: repeat 0 32))
      as (_ & _ & _ & [_ H] & _).
    apply H. repeat split; vm_compute; discriminate.
  - destruct (G1_DecodeCompressed_error_origin (mkG1 None) [0x80; 1])
      as ([_ H] & _).
    apply H. cbn [length]. lia.
Defined.

(** ** G1: what a successful [DecodeCompressed] leaves *)

(** X20.  When [DecodeCompressed] succeeds the encoding has 33 bytes, the
    COMPRESSED bit set and the INFINITY bit clear, and the [z] of the
    point is the one the receiver started with: one for a receiver that
    held a point, zero for a receiver whose point was nil, so that this
    point satisfies [IsInfinity]. *)
Theorem G1_DecodeCompressed_success_shape (e e' : G1) (enc : list Z) :
  G1_DecodeCompressed e enc = Done (e', None) ->
  length enc = 33%nat /\
  first_and enc serializationCompressed <> 0 /\
  first_and enc serializationInfinity = 0 /\
  exists c, G1_p e' = Some c /\
    cp_z c = cp_z (decode_start e) /\
    IsInfinity c = match G1_p e with None => true | Some _ => false end.
Proof.
  intros H.
  destruct (Nat.eq_dec (length enc) 33) as [Hlen|Hlen].
  2:{ unfold G1_DecodeCompressed in H.
      replace (Z.of_nat (length enc) =? G1CompressedSize) with false in H
        by (symmetry; apply Z.eqb_neq; unfold G1CompressedSize, FqElementSize; lia).
      cbn [negb] in H. discriminate H. }
  destruct (Z.eq_dec (first_and enc serializationCompressed) 0) as [Hc|Hc].
  { unfold G1_DecodeCompressed in H. rewrite Hlen in H.
    change (Z.of_nat 33 =? G1CompressedSize) with true in H. cbn [negb] in H.
    rewrite Hc in H. cbn [Z.eqb] in H. discriminate H. }
  destruct (Z.eq_dec (first_and enc serializationInfinity) 0) as [Hi|Hi].
  2:{ destruct (G1_DecodeCompressed_infinity_branch e enc Hlen Hc Hi) as [e1 H1].
      rewrite H1 in H. discriminate H. }
  repeat (split; [assumption|]).
  rewrite (G1_DecodeCompressed_finite_branch e enc Hlen Hc Hi) in H.
  apply (decode_finite_cases
           (gfP_Unmarshal gfP_zero (skipn 1 enc)) getYFromMontEncodedX
           (fun x y => fix_sign (mkG1 (Some (mkCurvePoint x y (cp_z (decode_start e))
                                                         (cp_t (decode_start e))))) enc))
    in H.
  destruct H as [(x & uerr & _ & Hr)|[(x & yerr & _ & _ & Hr)|(x & y & _ & _ & Hf & _)]];
    [discriminate Hr|discriminate Hr|].
  match type of Hf with
  | fix_sign (mkG1 (Some ?pt)) enc = _ =>
      destruct (fix_sign_cases pt enc) as (e1 & He1 & Hcases)
  end.
  rewrite He1 in Hf. injection Hf as <-.
  assert (Hz : IsInfinity (decode_start e)
               = match G1_p e with None => true | Some _ => false end).
  { unfold decode_start. destruct (G1_p e); vm_compute; reflexivity. }
  destruct Hcases as [-> | ->]; eexists; (split; [reflexivity|]);
    cbn [curvePoint_Neg cp_z]; (split; [reflexivity|]); exact Hz.
Qed.

Lemma G1_DecodeCompressed_success_shape_witness :
  exists e' c,
    G1_DecodeCompressed (mkG1 None) (0x80 :: repeat 0 31 ++ [2]) = Done (e', None) /\
    G1_p e' = Some c /\ IsInfinity c = true.
Proof.
  assert (H : exists e', G1_DecodeCompressed (mkG1 None) (0x80 :: repeat 0 31 ++ [2])
                         = Done (e', None))
    by (vm_compute; eexists; reflexivity).
  destruct H as [e' H].
  destruct (G1_DecodeCompressed_success_shape _ _ _ H) as (_ & _ & _ & c & Hc & _ & Hinf).
  exists e', c. split; [exact H|]. split; [exact Hc|exact Hinf].
Defined.

(** ** G1: decoding a finite point *)

Lemma G1_DecodeCompressed_root e enc :
  length enc = 33%nat -> bytes_ok enc ->
  first_and enc serializationCompressed <> 0 ->
  first_and enc serializationInfinity = 0 ->
  be_value (skipn 1 enc) < p ->
  let x := be_value (skipn 1 enc) in
  let c0 := decode_start e in
  G1_DecodeCompressed e enc =
    match big_ModSqrt ((x ^ 3 + 3) mod p) p with
    | None => Done (mkG1 (Some (mkCurvePoint (montEncode (of_Z x)) gfP_zero
                                             (cp_z c0) (cp_t c0))),
                    Some ErrNotASquare)
    | Some c =>
        if 2 ^ 248 <=? c
        then e' <- fix_sign (mkG1 (Some (mkCurvePoint (montEncode (of_Z x))
                                                      (montEncode (of_Z c))
                                                      (cp_z c0) (cp_t c0)))) enc ;;
             Done (e', None)
        else Panic
    end.
Proof.
  intros Hlen Hok Hc Hi Hlt x c0.
  destruct (payload_shape enc Hlen Hok) as [Hplen Hpok].
  pose proof (be_value_32_bounds _ Hplen Hpok) as Hb. fold x in Hb, Hlt.
  pose proof p_bounds as Hp.
  rewrite (G1_DecodeCompressed_coordinate e enc Hlen Hok Hc Hi).
  rewrite modulus_check_spec by apply of_Z_limbs_ok.
  rewrite (to_Z_parsed _ Hplen Hpok). fold x.
  destruct (Z.ltb_spec x p) as [_|]; [|lia].
  rewrite getYFromMontEncodedX_spec.
  rewrite (to_Z_of_Z x) by lia. fold c0.
  destruct (big_ModSqrt ((x ^ 3 + 3) mod p) p) as [c|] eqn:Hsq; [|reflexivity].
  apply big_ModSqrt_sound in Hsq. destruct Hsq as [_ Hcr].
  rewrite newGFpFromBigInt_spec by lia.
  destruct (2 ^ 248 <=? c); reflexivity.
Qed.

(** X21.  [DecodeCompressed] panics whenever the square root that
    [ModSqrt] returns has fewer than 32 bytes: [newGFpFromBigInt] slices
    past the end of its bytes. *)
Theorem G1_DecodeCompressed_short_root (e : G1) (enc : list Z) (c : Z) :
  length enc = 33%nat -> bytes_ok enc ->
  first_and enc serializationCompressed <> 0 ->
  first_and enc serializationInfinity = 0 ->
  be_value (skipn 1 enc) < p ->
  big_ModSqrt ((be_value (skipn 1 enc) ^ 3 + 3) mod p) p = Some c ->
  c < 2 ^ 248 ->
  G1_DecodeCompressed e enc = Panic.
Proof.
  intros Hlen Hok Hc Hi Hlt Hsq Hsmall.
  rewrite (G1_DecodeCompressed_root e enc Hlen Hok Hc Hi Hlt). cbv zeta.
  revert Hsq. generalize (big_ModSqrt ((be_value (skipn 1 enc) ^ 3 + 3) mod p) p).
  intros o ->. destruct (Z.leb_spec (2 ^ 248) c); [lia|reflexivity].
Qed.

Lemma G1_DecodeCompressed_short_root_witness :
  G1_DecodeCompressed (mkG1 None) (0xA0 :: repeat 0 31 ++ [1]) = Panic.
Proof.
  apply (G1_DecodeCompressed_short_root (mkG1 None) (0xA0 :: repeat 0 31 ++ [1]) 2).
  - reflexivity.
  - repeat (apply Forall_cons; [lia|]). apply Forall_nil.
  - vm_compute. discriminate.
  - reflexivity.
  - reflexivity.
  - vm_compute. reflexivity.
  - lia.
Defined.

(** ** G1: the compressed round trip of a finite point *)

Lemma sqrt_pm c Y :
  0 <= c < p -> 0 < Y < p -> (c * c) mod p = (Y * Y) mod p ->
  c = Y \/ c = p - Y.
Proof.
  intros Hc HY H.
  assert (Hd : (p | (c - Y) * (c + Y))).
  { apply Z.mod_divide; [lia|].
    replace ((c - Y) * (c + Y)) with (c * c - Y * Y) by ring.
    rewrite Zminus_mod, H, Z.sub_diag. reflexivity. }
  apply Z.divide_prime_mul in Hd; [|apply p_prime].
  destruct Hd as [[k Hk]|[k Hk]].
  - left. assert (k = 0) by nia. subst k. lia.
  - right. assert (k = 1) by nia. subst k. lia.
Qed.

Lemma to_Z_montDecoded y : gfP_valid y -> eqm p (to_Z y) (to_Z (montDecode y) * R).
Proof.
  intros Hy. rewrite <- (montEncode_montDecode y Hy) at 1. apply to_Z_montEncode.
Qed.

Lemma montEncode_root y c :
  gfP_valid y -> 0 < to_Z (montDecode y) < p ->
  c = to_Z (montDecode y) \/ c = p - to_Z (montDecode y) ->
  montEncode (of_Z c) = y \/ montEncode (of_Z c) = gfpNeg y.
Proof.
  intros Hy HY [-> | ->].
  - left. rewrite of_Z_to_Z by apply of_Z_limbs_ok.
    apply montEncode_montDecode. exact Hy.
  - right. pose proof p_bounds as Hp.
    apply gfP_valid_eq; [apply gfpMul_valid|apply gfpNeg_valid|].
    rewrite to_Z_montEncode, to_Z_gfpNeg_eqm, (to_Z_montDecoded y Hy).
    rewrite to_Z_of_Z by lia.
    generalize (to_Z (montDecode y)). intros Y.
    transitivity (- (Y * R) + R * p); [eqm_ring|].
    unfold eqm. rewrite Z.mod_add by lia. reflexivity.
Qed.

Lemma fix_sign_restores c y' enc rest :
  gfP_valid (cp_y c) -> cp_y c <> gfP_zero ->
  y' = cp_y c \/ y' = gfpNeg (cp_y c) ->
  enc = (if higher_loop [3; 2; 1; 0] (cp_y c) (gfpNeg (cp_y c)) then 0xA0 else 0x80)
        :: rest ->
  forall z t, exists t',
    fix_sign (mkG1 (Some (mkCurvePoint (cp_x c) y' z t))) enc
    = Done (mkG1 (Some (mkCurvePoint (cp_x c) (cp_y c) z t'))).
Proof.
  intros Hy Hnz Hy' -> z t. pose proof Hy as [Hl Hlt].
  pose proof (to_Z_bounds _ Hl) as Hb.
  assert (Hy0 : to_Z (cp_y c) <> 0).
  { intros H0. apply Hnz. apply gfP_valid_eq; [exact Hy|apply gfP_valid_zero|].
    rewrite H0. reflexivity. }
  assert (Hodd : 2 * to_Z (cp_y c) <> p) by (unfold p; lia).
  assert (Hh : higher_loop [3; 2; 1; 0] (cp_y c) (gfpNeg (cp_y c))
               = (to_Z (cp_y c) >? p - to_Z (cp_y c))).
  { rewrite higher_loop_spec by (exact Hl || apply of_Z_limbs_ok).
    rewrite gfpNeg_value by lia. reflexivity. }
  assert (Hh' : higher_loop [3; 2; 1; 0] (gfpNeg (cp_y c)) (gfpNeg (gfpNeg (cp_y c)))
                = negb (to_Z (cp_y c) >? p - to_Z (cp_y c))).
  { rewrite higher_loop_spec by apply of_Z_limbs_ok.
    rewrite (gfpNeg_involutive _ Hy). rewrite gfpNeg_value by lia.
    destruct (Z.gtb_spec (to_Z (cp_y c)) (p - to_Z (cp_y c)));
      destruct (Z.gtb_spec (p - to_Z (cp_y c)) (to_Z (cp_y c)));
      try reflexivity; exfalso; lia. }
  unfold fix_sign, G1_IsHigherY, G1_Neg, first_and;
    cbn [G1_p bind cp_y cp_x nth curvePoint_Neg].
  rewrite !gfP_Set_id. rewrite Hh.
  destruct Hy' as [-> | ->].
  - rewrite Hh.
    destruct (to_Z (cp_y c) >? p - to_Z (cp_y c)); cbn [negb].
    + change (Z.land 160 serializationBigY =? 0) with false.
      eexists; reflexivity.
    + change (Z.land 128 serializationBigY =? 0) with true. cbn [negb].
      eexists; reflexivity.
  - rewrite Hh'.
    destruct (to_Z (cp_y c) >? p - to_Z (cp_y c)); cbn [negb].
    + change (Z.land 160 serializationBigY =? 0) with false. cbn [negb bind].
      unfold curvePoint_Neg; cbn [cp_x cp_y cp_z cp_t].
      rewrite (gfpNeg_involutive _ Hy). eexists; reflexivity.
    + change (Z.land 128 serializationBigY =? 0) with true.
      unfold curvePoint_Neg; cbn [cp_x cp_y cp_z cp_t].
      rewrite (gfpNeg_involutive _ Hy). eexists; reflexivity.
Qed.

Lemma marshalled_payload x :
  gfP_valid x ->
  forall flag, 0 <= flag < 256 ->
  let enc := flag :: marshal_bytes x in
  length enc = 33%nat /\ bytes_ok enc /\ be_value (skipn 1 enc) = to_Z x /\
  of_Z (be_value (skipn 1 enc)) = x.
Proof.
  intros [Hl Hlt] flag Hflag enc.
  destruct (marshal_bytes_spec x Hl) as (Hlen & Hok & Hof & Hval).
  unfold enc. cbn [length skipn]. rewrite Hlen.
  repeat split; try assumption; try lia.
  apply Forall_cons; assumption.
Qed.

(** X22.  An affine point of the curve whose [y] and [-y] both have a
    nonzero most significant byte survives [EncodeCompressed] followed
    by [DecodeCompressed]: the same [x] and the same [y] come back. *)
Theorem G1_compressed_round_trip (e0 : G1) (c : curvePoint) :
  cp_z c = newGFp 1 -> gfP_valid (cp_x c) -> gfP_valid (cp_y c) ->
  (to_Z (montDecode (cp_y c)) * to_Z (montDecode (cp_y c))) mod p
    = (to_Z (montDecode (cp_x c)) ^ 3 + 3) mod p ->
  2 ^ 248 <= to_Z (montDecode (cp_y c)) <= p - 2 ^ 248 ->
  exists encoding e' c',
    G1_EncodeCompressed (mkG1 (Some c)) = Done (mkG1 (Some c), encoding) /\
    G1_DecodeCompressed e0 encoding = Done (e', None) /\
    G1_p e' = Some c' /\ cp_x c' = cp_x c /\ cp_y c' = cp_y c /\
    cp_z c' = cp_z (decode_start e0).
Proof.
  intros Hz Hx Hy Hcurve HY. pose proof p_bounds as Hp.
  assert (Haff : MakeAffine c = c).
  { unfold MakeAffine. rewrite Hz. reflexivity. }
  assert (Hfin : IsInfinity (MakeAffine c) = false).
  { rewrite Haff. unfold IsInfinity. rewrite Hz. reflexivity. }
  pose proof (G1_EncodeCompressed_affine (mkG1 (Some c)) c eq_refl Hfin) as Henc.
  rewrite Haff in Henc.
  set (flag := if higher_loop [3; 2; 1; 0] (cp_y c) (gfpNeg (cp_y c))
               then 0xA0 else 0x80) in *.
  set (Xd := montDecode (cp_x c)) in *.
  set (enc := flag :: marshal_bytes Xd) in *.
  assert (Hflag : 0 <= flag < 256) by (unfold flag; destruct (higher_loop _ _ _); lia).
  assert (Hfc : first_and enc serializationCompressed <> 0).
  { unfold enc, first_and, flag; cbn [nth]. destruct (higher_loop _ _ _); discriminate. }
  assert (Hfi : first_and enc serializationInfinity = 0).
  { unfold enc, first_and, flag; cbn [nth]. destruct (higher_loop _ _ _); reflexivity. }
  assert (HXd : gfP_valid Xd) by apply gfpMul_valid.
  destruct (marshalled_payload Xd HXd flag Hflag) as (Hlen & Hok & Hval & Hof).
  fold enc in Hlen, Hok, Hval, Hof.
  pose proof HXd as [HXl HXlt].
  assert (Hlt : be_value (skipn 1 enc) < p) by (rewrite Hval; exact HXlt).
  pose proof (G1_DecodeCompressed_root e0 enc Hlen Hok Hfc Hfi Hlt) as Hdec.
  cbv zeta in Hdec. rewrite Hof, Hval in Hdec.
  assert (HXenc : montEncode Xd = cp_x c) by apply (montEncode_montDecode _ Hx).
  rewrite HXenc in Hdec.
  destruct (big_ModSqrt_complete ((to_Z Xd ^ 3 + 3) mod p) (to_Z (montDecode (cp_y c))))
    as [c0 Hsq].
  { rewrite Z.mod_mod by lia. exact Hcurve. }
  pose proof (big_ModSqrt_sound _ _ Hsq) as [Hc0sq Hc0].
  rewrite Z.mod_mod in Hc0sq by lia. rewrite <- Hcurve in Hc0sq.
  revert Hdec. revert Hsq.
  generalize (big_ModSqrt ((to_Z Xd ^ 3 + 3) mod p) p). intros o -> Hdec.
  assert (H248 : 0 < 2 ^ 248) by reflexivity.
  assert (HYr : 0 < to_Z (montDecode (cp_y c)) < p) by lia.
  destruct (sqrt_pm c0 _ Hc0 HYr Hc0sq) as [Hroot|Hroot].
  all: assert (Hbig : 2 ^ 248 <= c0) by lia.
  all: apply Z.leb_le in Hbig; rewrite Hbig in Hdec.
  all: assert (Hynz : cp_y c <> gfP_zero)
         by (intros H0; rewrite H0 in HY; revert HY; vm_compute; intros [H1 _];
             apply H1; reflexivity).
  all: destruct (montEncode_root (cp_y c) c0 Hy HYr ltac:(auto)) as [Hy'|Hy'].
  all: destruct (fix_sign_restores c (montEncode (of_Z c0)) enc (marshal_bytes Xd)
                   Hy Hynz ltac:(auto) eq_refl
                   (cp_z (decode_start e0)) (cp_t (decode_start e0))) as [t' Hfix].
  all: rewrite Hfix, bind_Done in Hdec.
  all: exists enc, (mkG1 (Some (mkCurvePoint (cp_x c) (cp_y c)
                                              (cp_z (decode_start e0)) t'))),
         (mkCurvePoint (cp_x c) (cp_y c) (cp_z (decode_start e0)) t').
  all: split; [exact Henc|split; [exact Hdec|repeat split]].
Qed.

Lemma G1_compressed_round_trip_witness :
  exists encoding e' c',
    G1_EncodeCompressed (mkG1 (Some G1_sample_point))
      = Done (mkG1 (Some G1_sample_point), encoding) /\
    G1_DecodeCompressed (mkG1 None) encoding = Done (e', None) /\
    G1_p e' = Some c' /\ cp_x c' = cp_x G1_sample_point /\
    cp_y c' = cp_y G1_sample_point /\
    cp_z c' = cp_z (decode_start (mkG1 None)).
Proof.
  apply (G1_compressed_round_trip (mkG1 None) G1_sample_point).
  - reflexivity.
  - apply gfpMul_valid.
  - apply gfpMul_valid.
  - vm_compute. reflexivity.
  - split; vm_compute; discriminate.
Defined.

(** ** G1: [getYFromMontEncodedX] on its own *)

Lemma curve_rhs_decoded x :
  eqm p (to_Z (gfpAdd (gfpMul (gfpMul x x) x) curveB))
        (((to_Z x * Rinv) ^ 3 + 3) * R).
Proof.
  pose proof p_bounds as Hp.
  rewrite <- (Zmod_eqm p (to_Z (gfpAdd _ _))), to_Z_gfpAdd, Z.mod_mod, Zmod_eqm by lia.
  rewrite <- (Zmod_eqm p (to_Z (gfpMul _ x))), to_Z_gfpMul, Z.mod_mod, Zmod_eqm by lia.
  rewrite <- (Zmod_eqm p (to_Z (gfpMul x x))), to_Z_gfpMul, Z.mod_mod, Zmod_eqm by lia.
  rewrite curveB_value. generalize (to_Z x). intros v.
  transitivity (v * v * Rinv * v * Rinv + 3 * R); [reflexivity|].
  transitivity (v * v * v * Rinv * Rinv * (R * Rinv) + 3 * R);
    [rewrite R_Rinv_eqm|]; eqm_ring.
Qed.

Lemma square_decoded y :
  eqm p (to_Z (gfpMul y y)) ((to_Z y * Rinv) * (to_Z y * Rinv) * R).
Proof.
  pose proof p_bounds as Hp.
  rewrite <- (Zmod_eqm p (to_Z (gfpMul y y))), to_Z_gfpMul, Z.mod_mod, Zmod_eqm by lia.
  generalize (to_Z y). intros v.
  transitivity (v * v * Rinv * (R * Rinv)); [rewrite R_Rinv_eqm|]; eqm_ring.
Qed.

Lemma eqm_cancel_R a b : eqm p (a * R) (b * R) -> eqm p a b.
Proof.
  intros H.
  transitivity (a * R * Rinv).
  - transitivity (a * (R * Rinv)); [rewrite R_Rinv_eqm|]; eqm_ring.
  - rewrite H. transitivity (b * (R * Rinv)); [|rewrite R_Rinv_eqm]; eqm_ring.
Qed.

(** X23.  On a field element [x], a [y] returned by
    [getYFromMontEncodedX] is a field element with [y * y = x^3 + b] in
    Montgomery arithmetic; the error returned is "not a square", and
    only when no such [y] exists; when one exists the function returns
    one or panics. *)
Theorem getYFromMontEncodedX_sound (x : gfP) :
  gfP_valid x ->
  let rhs := gfpAdd (gfpMul (gfpMul x x) x) curveB in
  (forall y, getYFromMontEncodedX x = Done (inl y) ->
             gfP_valid y /\ gfpMul y y = rhs) /\
  (forall err, getYFromMontEncodedX x = Done (inr err) ->
               err = ErrNotASquare /\ forall y, gfpMul y y <> rhs) /\
  ((exists y, gfpMul y y = rhs) ->
   getYFromMontEncodedX x = Panic \/ exists y, getYFromMontEncodedX x = Done (inl y)).
Proof.
  intros Hx rhs. pose proof p_bounds as Hp.
  pose proof (getYFromMontEncodedX_spec (montDecode x)) as Hspec.
  rewrite (montEncode_montDecode x Hx) in Hspec.
  assert (HX : eqm p (to_Z (montDecode x)) (to_Z x * Rinv)) by apply to_Z_montDecode.
  assert (Hrhs : eqm p (to_Z rhs) ((to_Z (montDecode x) ^ 3 + 3) * R)).
  { unfold rhs. rewrite curve_rhs_decoded, HX. reflexivity. }
  set (v := to_Z (montDecode x) ^ 3 + 3) in *.
  assert (Hsquare : forall y, gfpMul y y = rhs ->
            ((to_Z y * Rinv) * (to_Z y * Rinv)) mod p = (v mod p) mod p).
  { intros y Hy. rewrite Z.mod_mod by lia. eqm_goal. apply eqm_cancel_R.
    rewrite <- square_decoded, Hy. exact Hrhs. }
  rewrite Hspec. clear Hspec.
  destruct (big_ModSqrt (v mod p) p) as [c|] eqn:Hsq.
  - apply big_ModSqrt_sound in Hsq. destruct Hsq as [Hcc Hc].
    rewrite Z.mod_mod in Hcc by lia.
    rewrite newGFpFromBigInt_spec by lia.
    destruct (Z.leb_spec (2 ^ 248) c) as [Hbig|Hsmall].
    + rewrite bind_Done. split; [|split].
      * intros y Hy. injection Hy as <-. split; [apply gfpMul_valid|].
        apply gfP_valid_eq; [apply gfpMul_valid|apply of_Z_mod_valid|].
        rewrite square_decoded, Hrhs.
        assert (Hm : eqm p (to_Z (montEncode (of_Z c)) * Rinv) c).
        { rewrite to_Z_montEncode, to_Z_of_Z by lia.
          transitivity (c * (R * Rinv)); [|rewrite R_Rinv_eqm]; eqm_ring. }
        rewrite Hm. assert (Hcc' : eqm p (c * c) v) by exact Hcc.
        rewrite Hcc'. reflexivity.
      * intros err Herr. discriminate Herr.
      * intros _. right. eexists. reflexivity.
    + rewrite bind_Panic. split; [|split].
      * intros y Hy. discriminate Hy.
      * intros err Herr. discriminate Herr.
      * intros _. left. reflexivity.
  - split; [|split].
    + intros y Hy. discriminate Hy.
    + intros err Herr. injection Herr as <-. split; [reflexivity|].
      intros y Hy. apply Hsquare in Hy.
      destruct (big_ModSqrt_complete _ _ Hy) as [c Hc]. congruence.
    + intros [y Hy]. apply Hsquare in Hy.
      destruct (big_ModSqrt_complete _ _ Hy) as [c Hc]. congruence.
Qed.

Lemma getYFromMontEncodedX_sound_witness :
  gfpMul (cp_y G1_sample_point) (cp_y G1_sample_point)
  = gfpAdd (gfpMul (gfpMul (newGFp 2) (newGFp 2)) (newGFp 2)) curveB.
Proof.
  destruct (getYFromMontEncodedX_sound (newGFp 2)) as [H _].
  - apply gfpMul_valid.
  - apply (H (cp_y G1_sample_point)). vm_compute. reflexivity.
Defined.

(** ** gfP2: decoding *)

(** X24.  [gfP2Decode] undoes [montEncode] on both components; [IsOne]
    holds exactly of the element that decodes to [0*i + 1] and [IsZero]
    exactly of the one that decodes to [0*i + 0]. *)
Theorem gfP2Decode_spec (a : gfP2) :
  gfP2_valid a ->
  gfP2Decode (mkGfP2 (montEncode (gfP2_x a)) (montEncode (gfP2_y a))) = a /\
  (gfP2_IsOne a = true <-> gfP2Decode a = mkGfP2 gfP_zero gfP_lit1) /\
  (gfP2_IsZero a = true <-> gfP2Decode a = mkGfP2 gfP_zero gfP_zero).
Proof.
  intros [Hx Hy]. destruct a as [ax ay]. cbn [gfP2_x gfP2_y] in *.
  unfold gfP2Decode, gfP2_IsOne, gfP2_IsZero; cbn [gfP2_x gfP2_y].
  split; [|split].
  - rewrite !montDecode_montEncode by assumption. reflexivity.
  - rewrite andb_true_iff, !gfP_eqb_eq. split.
    + intros [-> ->]. vm_compute. reflexivity.
    + intros H. pose proof (f_equal gfP2_x H) as H1.
      pose proof (f_equal gfP2_y H) as H2. cbn [gfP2_x gfP2_y] in H1, H2. split.
      * rewrite <- (montEncode_montDecode ax Hx), H1. vm_compute. reflexivity.
      * rewrite <- (montEncode_montDecode ay Hy), H2. vm_compute. reflexivity.
  - rewrite andb_true_iff, !gfP_eqb_eq. split.
    + intros [-> ->]. vm_compute. reflexivity.
    + intros H. pose proof (f_equal gfP2_x H) as H1.
      pose proof (f_equal gfP2_y H) as H2. cbn [gfP2_x gfP2_y] in H1, H2. split.
      * rewrite <- (montEncode_montDecode ax Hx), H1. vm_compute. reflexivity.
      * rewrite <- (montEncode_montDecode ay Hy), H2. vm_compute. reflexivity.
Qed.

Lemma gfP2Decode_spec_witness :
  gfP2Decode (mkGfP2 (montEncode (newGFp 1)) (montEncode (newGFp 9))) = gfP2_xi.
Proof.
  apply (gfP2Decode_spec gfP2_xi). split; apply gfpMul_valid.
Defined.

(** ** G1: the uncompressed encoding of the point at infinity *)

(** X25.  [EncodeUncompressed] of the point at infinity is 64 bytes, the
    first [0x40] and the others zero. *)
Theorem G1_EncodeUncompressed_infinity (e : G1) (c : curvePoint) :
  G1_p e = Some c -> IsInfinity (MakeAffine c) = true ->
  G1_EncodeUncompressed e = Done (mkG1 (Some (MakeAffine c)), 0x40 :: repeat 0 63).
Proof.
  intros Hp Hinf. unfold G1_EncodeUncompressed. rewrite Hp, Hinf. reflexivity.
Qed.

Lemma G1_EncodeUncompressed_infinity_witness :
  exists e, G1_EncodeUncompressed G1_infinity = Done (e, 0x40 :: repeat 0 63).
Proof.
  eexists.
  apply (G1_EncodeUncompressed_infinity G1_infinity
           (SetInfinity (mkCurvePoint gfP_zero gfP_zero gfP_zero gfP_zero))).
  - reflexivity.
  - vm_compute. reflexivity.
Defined.
